(** * Smart Image Explorer: scanner, image list model and view model

    A shallow embedding of [image_finder.py]: the pure scanner
    [scan_images] over a snapshot of the file system, the list model
    [ImageListModel] with the filtering proxy set up by [ViewModel], and the
    scan controller ([ViewModel.scan], [ScanWorker.run], the connected
    slots) as a transition system over the foreground thread's queue of
    posted calls.

    Python [str] values are modelled by [string]: a character is a code
    point below 256, so [str.lower] is the Latin-1 part of the Unicode
    lower-casing and the order on strings is the code point order. The
    file system is a tree of files, directories and symbolic links, with
    path resolution as the kernel does it; permissions and the root ["//"]
    are left out. *)

From Stdlib Require Import Ascii String.
From stdpp Require Import base list strings sorting gmap.

(** ** Python strings *)

Module Str.

Definition lower_char (c : ascii) : ascii :=
  let n := N_of_ascii c in
  if ((65 <=? n) && (n <=? 90) || (192 <=? n) && (n <=? 222) && negb (n =? 215))%N
  then ascii_of_N (n + 32) else c.

(** [s.lower()] *)
Fixpoint lower (s : string) : string :=
  match s with
  | EmptyString => EmptyString
  | String c s' => String (lower_char c) (lower s')
  end.

Definition len (s : string) : Z := Z.of_nat (String.length s).

Fixpoint rfind_from (ch : ascii) (s : string) (i best : Z) : Z :=
  match s with
  | EmptyString => best
  | String c s' => rfind_from ch s' (i + 1)%Z (if Ascii.eqb c ch then i else best)
  end.

(** [s.rfind(ch)]: the highest index of [ch] in [s], or -1. *)
Definition rfind (ch : ascii) (s : string) : Z := rfind_from ch s 0 (-1).

Fixpoint drop (n : nat) (s : string) : string :=
  match n, s with
  | O, _ => s
  | S n', String _ s' => drop n' s'
  | S _, EmptyString => EmptyString
  end.

(** [s[i:]] for [0 <= i]. *)
Definition slice_from (i : Z) (s : string) : string := drop (Z.to_nat i) s.

(** [s.split(sep)] for a one-character separator. *)
Fixpoint split (sep : ascii) (s : string) : list string :=
  match s with
  | EmptyString => [EmptyString]
  | String c s' =>
      if Ascii.eqb c sep then EmptyString :: split sep s'
      else match split sep s' with
           | w :: ws => String c w :: ws
           | [] => [String c EmptyString]
           end
  end.

(** [sep.join(ws)] *)
Fixpoint join (sep : string) (ws : list string) : string :=
  match ws with
  | [] => EmptyString
  | [w] => w
  | w :: ws' => w +:+ sep +:+ join sep ws'
  end.

Fixpoint startswith (pre s : string) : bool :=
  match pre, s with
  | EmptyString, _ => true
  | String a pre', String b s' => Ascii.eqb a b && startswith pre' s'
  | String _ _, EmptyString => false
  end.

(** [needle in hay] *)
Fixpoint contains (needle hay : string) : bool :=
  startswith needle hay ||
  match hay with
  | EmptyString => false
  | String _ hay' => contains needle hay'
  end.

Definition has_char (ch : ascii) (s : string) : bool :=
  contains (String ch EmptyString) s.

(** [x in xs] for a tuple of strings. *)
Definition mem (x : string) (xs : list string) : bool :=
  existsb (String.eqb x) xs.

(** [l.sort()]: the ascending rearrangement of [l] in the code point
    order of strings. *)
Definition sort (l : list string) : list string := merge_sort String.le l.

End Str.

(** ** Errors

    A Python call either returns a value or raises; [Exc] carries
    [str(exc)]. *)

Inductive result (A : Type) : Type :=
| Ok (a : A)
| Exc (msg : string).
Arguments Ok {A} a.
Arguments Exc {A} msg.

#[global] Instance result_bind : MBind result :=
  fun A B (k : A -> result B) (r : result A) =>
    match r with
    | Ok a => k a
    | Exc msg => Exc msg
    end.

(** ** The file system seen by [pathlib] *)

Module Fs.

#[local] Unset Elimination Schemes.
(** An entry of a directory: a regular file, a special file (fifo, socket,
    device), a directory with its entries in [scandir] order, or a
    symbolic link with the target text [readlink] returns. *)
Inductive node : Type :=
| File
| Special
| Dir (entries : list (string * node))
| Link (target : string).
#[local] Set Elimination Schemes.

(** A snapshot: the entries of ["/"] and the working directory of the
    process (the names from ["/"] down). *)
Record filesystem : Type := {
  root_entries : list (string * node);
  cwd : list string
}.

Fixpoint entry (name : string) (entries : list (string * node)) : option node :=
  match entries with
  | [] => None
  | (n, x) :: rest => if String.eqb n name then Some x else entry name rest
  end.

(** The node the names [p] lead to from [n], no link followed. *)
Fixpoint node_at (n : node) (p : list string) : option node :=
  match p with
  | [] => Some n
  | c :: p' =>
      match n with
      | Dir entries =>
          match entry c entries with
          | Some n' => node_at n' p'
          | None => None
          end
      | _ => None
      end
  end.

(** [lstat] of the canonical names [p]. *)
Definition lstat (fs : filesystem) (p : list string) : option node :=
  node_at (Dir (root_entries fs)) p.

(** Path text as the kernel and [pathlib] read it: names separated by
    ["/"], empty names and ["."] dropped, absolute when it starts with
    ["/"]. *)
Definition names_of (s : string) : list string :=
  List.filter (fun w => negb (String.eqb w "") && negb (String.eqb w "."))
              (Str.split "/" s).

Definition is_abs (s : string) : bool := Str.startswith "/" s.

(** The kernel follows at most this many links in one resolution
    (ELOOP beyond). *)
Definition MAXSYMLINKS : nat := 40.

(** Resolution of the names [comps] from the directory [cur]. With
    [strict] every name must exist ([stat]); without, a missing name is
    kept as it is ([os.path.realpath]). [None] is ENOENT, ENOTDIR or
    ELOOP. *)
Fixpoint walk (fs : filesystem) (strict : bool) (fuel : nat)
         (cur : list string) (comps : list string) : option (list string) :=
  match fuel with
  | O => None
  | S fuel' =>
      (fix go (cur : list string) (comps : list string) : option (list string) :=
         match comps with
         | [] => Some cur
         | c :: rest =>
             if String.eqb c "" || String.eqb c "." then go cur rest
             else if String.eqb c ".." then go (removelast cur) rest
             else
               match lstat fs (cur ++ [c]) with
               | Some (Link target) =>
                   walk fs strict fuel'
                        (if is_abs target then [] else cur)
                        (names_of target ++ rest)
               | Some (Dir _) => go (cur ++ [c]) rest
               | Some _ =>
                   if strict && negb (bool_decide (rest = [])) then None
                   else go (cur ++ [c]) rest
               | None => if strict then None else go (cur ++ [c]) rest
               end
         end) cur comps
  end.

End Fs.

(** ** [pathlib.Path] *)

Module Path.
Import Fs.

(** A pure path: whether it is anchored at ["/"], and its names. *)
Record PurePath : Type := {
  absolute : bool;
  parts : list string
}.

(** [Path(s)] *)
Definition Path (s : string) : PurePath :=
  {| absolute := is_abs s; parts := names_of s |}.

(** [p / name1 / ... / namek] *)
Definition joinpath (p : PurePath) (rel : list string) : PurePath :=
  {| absolute := absolute p; parts := parts p ++ rel |}.

(** [str(p)] *)
Definition str (p : PurePath) : string :=
  if absolute p then "/" +:+ Str.join "/" (parts p)
  else match parts p with
       | [] => "."
       | _ => Str.join "/" (parts p)
       end.

(** [p.name] *)
Definition name (p : PurePath) : string := List.last (parts p) "".

(** [p.suffix]: the last dot of the name and what follows, unless the dot
    starts or ends the name. *)
Definition suffix (p : PurePath) : string :=
  let i := Str.rfind "." (name p) in
  if ((0 <? i) && (i <? Str.len (name p) - 1))%Z
  then Str.slice_from i (name p)
  else "".

(** [p.stat()]: the canonical names of the entry [p] leads to, links
    followed. *)
Definition stat (fs : filesystem) (p : PurePath) : option (list string) :=
  walk fs true (S MAXSYMLINKS) (if absolute p then [] else cwd fs) (parts p).

Definition kind (fs : filesystem) (p : PurePath) : option node :=
  c ← stat fs p; lstat fs c.

(** [p.is_dir()] *)
Definition is_dir (fs : filesystem) (p : PurePath) : bool :=
  match kind fs p with
  | Some (Dir _) => true
  | _ => false
  end.

(** [p.is_file()] *)
Definition is_file (fs : filesystem) (p : PurePath) : bool :=
  match kind fs p with
  | Some File => true
  | _ => false
  end.

(** [p.resolve()]: raises on a symlink loop. *)
Definition resolve (fs : filesystem) (p : PurePath) : result PurePath :=
  match walk fs false (S MAXSYMLINKS) (if absolute p then [] else cwd fs) (parts p) with
  | Some c => Ok {| absolute := true; parts := c |}
  | None => Exc ("Symlink loop from " +:+ str p)
  end.

(** The names below a directory node that [rglob("*")] yields: every
    entry of the directory, then the same for each sub-directory. A link
    to a directory is yielded but not entered. *)
Fixpoint rglob_from (rel : list string) (n : node) : list (list string) :=
  match n with
  | Dir entries =>
      map (fun e => rel ++ [fst e]) entries ++
      flat_map (fun e => rglob_from (rel ++ [fst e]) (snd e)) entries
  | _ => []
  end.

(** [p.rglob("*")] *)
Definition rglob (fs : filesystem) (p : PurePath) : list PurePath :=
  match kind fs p with
  | Some n => map (joinpath p) (rglob_from [] n)
  | None => []
  end.

(** [os.path.isdir(s)] *)
Definition os_path_isdir (fs : filesystem) (s : string) : bool :=
  negb (String.eqb s "") && is_dir fs (Path s).

End Path.

(** ** The scanner *)

Import Fs Path.

Definition IMAGE_EXTENSIONS : list string :=
  [".png"; ".jpg"; ".jpeg"; ".bmp"; ".gif"; ".tiff"; ".tif"; ".webp";
   ".heic"; ".heif"; ".svg"; ".ppm"; ".pgm"].

(** One turn of the loop of [scan_images]. *)
Definition scan_step (fs : filesystem) (exts_lower : list string)
           (out : result (list string)) (p : PurePath) : result (list string) :=
  out ← out;
  if is_file fs p && Str.mem (Str.lower (suffix p)) exts_lower
  then r ← resolve fs p; Ok (out ++ [str r])
  else Ok out.

Definition scan_images (fs : filesystem) (root : string) (exts : list string)
  : result (list string) :=
  let base := Path root in
  if negb (is_dir fs base) then Ok []
  else
    let exts_lower := map Str.lower exts in
    out ← fold_left (scan_step fs exts_lower) (rglob fs base) (Ok []);
    Ok (Str.sort out).

(** ** The image list model *)

(** The icon [_make_icon] builds for a path; its pixels are Qt's. *)
Inductive QIcon : Type :=
| icon_for (path : string) (thumb_size : Z).

(** What [data] hands back: a name or path, or an icon. *)
Inductive variant : Type :=
| VStr (s : string)
| VIcon (icon : QIcon).

Record QModelIndex : Type := {
  row : Z;
  column : Z;
  has_model : bool
}.

(** [index.isValid()] *)
Definition isValid (index : QModelIndex) : bool :=
  (0 <=? row index)%Z && (0 <=? column index)%Z && has_model index.

(** [QModelIndex()] *)
Definition invalid_index : QModelIndex :=
  {| row := -1; column := -1; has_model := false |}.

(** The signals a [QAbstractListModel] emits around its changes. *)
Inductive model_signal : Type :=
| modelAboutToBeReset
| modelReset
| rowsAboutToBeRemoved (first last : nat)
| rowsRemoved (first last : nat).

Definition displayRole : Z := 0.
Definition decorationRole : Z := 1.
Definition UserRole : Z := 256.
Definition FILEPATH_ROLE : Z := UserRole + 1.

(** [os.path.basename(p)] *)
Definition basename (p : string) : string :=
  let i := (Str.rfind "/" p + 1)%Z in
  Str.slice_from i p.

(** [l[i]] *)
Definition getitem (l : list string) (i : Z) : result string :=
  let i' := if (i <? 0)%Z then (i + Z.of_nat (length l))%Z else i in
  if (i' <? 0)%Z then Exc "list index out of range"
  else match l !! Z.to_nat i' with
       | Some x => Ok x
       | None => Exc "list index out of range"
       end.

(** [l.index(x)]; [None] is the [ValueError]. *)
Fixpoint list_index (x : string) (l : list string) : option nat :=
  match l with
  | [] => None
  | y :: l' => if String.eqb y x then Some O else S <$> list_index x l'
  end.

Record ImageListModel : Type := {
  _paths : list string;
  _thumbs : gmap string QIcon;
  _thumb_size : Z;
  emitted : list model_signal
}.

Definition ImageListModel_init (paths : list string) (thumb_size : Z) : ImageListModel :=
  {| _paths := paths; _thumbs := ∅; _thumb_size := thumb_size; emitted := [] |}.

Definition rowCount (m : ImageListModel) : nat := length (_paths m).

(** [QAbstractListModel.index(row, 0)]: invalid outside the rows. *)
Definition index (m : ImageListModel) (r : nat) : QModelIndex :=
  if bool_decide (r < rowCount m)
  then {| row := Z.of_nat r; column := 0; has_model := true |}
  else invalid_index.

Definition _make_icon (m : ImageListModel) (path : string) : QIcon :=
  icon_for path (_thumb_size m).

Definition data (m : ImageListModel) (index : QModelIndex) (role : Z)
  : result (option variant * ImageListModel) :=
  if negb (isValid index) then Ok (None, m)
  else
    path ← getitem (_paths m) (row index);
    if (role =? displayRole)%Z then Ok (Some (VStr (basename path)), m)
    else if (role =? FILEPATH_ROLE)%Z then Ok (Some (VStr path), m)
    else if (role =? decorationRole)%Z then
      match _thumbs m !! path with
      | Some icon => Ok (Some (VIcon icon), m)
      | None =>
          let icon := _make_icon m path in
          Ok (Some (VIcon icon),
              {| _paths := _paths m; _thumbs := <[path := icon]> (_thumbs m);
                 _thumb_size := _thumb_size m; emitted := emitted m |})
      end
    else Ok (None, m).

Definition replace (m : ImageListModel) (paths : list string) : ImageListModel :=
  {| _paths := paths; _thumbs := ∅; _thumb_size := _thumb_size m;
     emitted := emitted m ++ [modelAboutToBeReset; modelReset] |}.

Definition remove_path (m : ImageListModel) (path : string) : ImageListModel :=
  match list_index path (_paths m) with
  | None => m
  | Some r =>
      {| _paths := delete r (_paths m);
         _thumbs := delete path (_thumbs m);
         _thumb_size := _thumb_size m;
         emitted := emitted m ++ [rowsAboutToBeRemoved r r; rowsRemoved r r] |}
  end.

(** ** The filtering proxy

    [QSortFilterProxyModel] with a fixed filter string, case-insensitive,
    on the display role, and no sorting: it shows the source rows whose
    display text contains the filter string, in source order. *)

Definition display_text (m : ImageListModel) (r : nat) : string :=
  match data m (index m r) displayRole with
  | Ok (Some (VStr s), _) => s
  | _ => ""
  end.

Definition filterAcceptsRow (text : string) (m : ImageListModel) (r : nat) : bool :=
  Str.contains (Str.lower text) (Str.lower (display_text m r)).

(** The source rows the proxy shows. *)
Definition shown_rows (text : string) (m : ImageListModel) : list nat :=
  List.filter (filterAcceptsRow text m) (seq 0 (rowCount m)).

Definition filepath (m : ImageListModel) (r : nat) : string :=
  match data m (index m r) FILEPATH_ROLE with
  | Ok (Some (VStr s), _) => s
  | _ => ""
  end.

(** ** The view model and its scan workers

    The state of the controller is the [ViewModel] with its model, the
    worker objects it has created, the workers handed to the thread pool
    that have not run yet, and the calls queued for the foreground thread.
    Worker objects are shared between the foreground thread and the pool:
    a worker is named by its position in [heap]. As Qt connects them, a
    signal emitted on a pool thread does not run its slot there: the call is
    queued and the event loop of the foreground thread runs it later, calls
    being taken in the order of their emission. *)

Record ScanWorker : Type := {
  path : string;
  _cancel_event : bool
}.

(** A call queued for the foreground thread by a signal emitted on a pool
    thread, one for each of the three connections [ViewModel.scan] makes:
    [result] to [self.model.replace], [error] to the printing lambda and
    [finished] to the closure [on_finished] of the worker. *)
Inductive slot : Type :=
| to_replace (matches : list string)
| to_print_error (msg : string)
| to_on_finished (worker : nat).

Record ViewModel : Type := {
  model : ImageListModel;
  filter_text : string;
  _busy : bool;
  busyChanged : list bool;
  _current_worker : option nat;
  heap : list ScanWorker;
  pool : list nat;
  posted : list (nat * slot);
  stdout : list string
}.

Definition ViewModel_init : ViewModel :=
  {| model := ImageListModel_init [] 64; filter_text := ""; _busy := false;
     busyChanged := []; _current_worker := None; heap := []; pool := [];
     posted := []; stdout := [] |}.

Definition with_model (vm : ViewModel) (m : ImageListModel) : ViewModel :=
  {| model := m; filter_text := filter_text vm; _busy := _busy vm;
     busyChanged := busyChanged vm; _current_worker := _current_worker vm;
     heap := heap vm; pool := pool vm; posted := posted vm; stdout := stdout vm |}.

Definition _set_busy (value : bool) (vm : ViewModel) : ViewModel :=
  if negb (eqb (_busy vm) value)
  then {| model := model vm; filter_text := filter_text vm; _busy := value;
          busyChanged := busyChanged vm ++ [value];
          _current_worker := _current_worker vm;
          heap := heap vm; pool := pool vm; posted := posted vm; stdout := stdout vm |}
  else vm.

Definition set_filter (text : string) (vm : ViewModel) : ViewModel :=
  {| model := model vm; filter_text := text; _busy := _busy vm;
     busyChanged := busyChanged vm; _current_worker := _current_worker vm;
     heap := heap vm; pool := pool vm; posted := posted vm; stdout := stdout vm |}.

(** The paths the proxy shows, in its row order. *)
Definition filtered_view (vm : ViewModel) : list string :=
  map (filepath (model vm)) (shown_rows (filter_text vm) (model vm)).

(** [worker.cancel()] *)
Definition cancel (w : ScanWorker) : ScanWorker :=
  {| path := path w; _cancel_event := true |}.

(** The cancellation of the worker in flight, if any. *)
Definition cancel_current (vm : ViewModel) : ViewModel :=
  match _current_worker vm with
  | Some w =>
      {| model := model vm; filter_text := filter_text vm; _busy := _busy vm;
         busyChanged := busyChanged vm; _current_worker := None;
         heap := alter cancel w (heap vm); pool := pool vm;
         posted := posted vm; stdout := stdout vm |}
  | None => vm
  end.

(** [ScanWorker(path)], kept as current and handed to the pool. *)
Definition start_worker (p : string) (vm : ViewModel) : ViewModel :=
  let worker := length (heap vm) in
  {| model := model vm; filter_text := filter_text vm; _busy := _busy vm;
     busyChanged := busyChanged vm; _current_worker := Some worker;
     heap := heap vm ++ [{| path := p; _cancel_event := false |}];
     pool := pool vm ++ [worker];
     posted := posted vm; stdout := stdout vm |}.

Definition scan (fs : filesystem) (p : string) (vm : ViewModel) : ViewModel :=
  if String.eqb p "" || negb (os_path_isdir fs p)
  then with_model vm (replace (model vm) [])
  else start_worker p (_set_busy true (cancel_current vm)).

(** What [ScanWorker.run] emits, in order, given what the call
    [scan_images(self.path)] did. *)
Definition run_emits (w : nat) (cancelled : bool) (matches : result (list string))
  : list (nat * slot) :=
  match matches with
  | Ok matches => if negb cancelled then [(w, to_replace matches)] else []
  | Exc exc => if negb cancelled then [(w, to_print_error exc)] else []
  end ++ [(w, to_on_finished w)].

(** [ScanWorker.run] of the worker [w], on a pool thread. [scan_fn] is
    what the call [scan_images(self.path)] does in the environment of the
    run: it returns the matches found on the disk as it is then, or raises.
    The signals object of the worker lives on the foreground thread, as the
    receivers do, so each emission is queued there as a call. A worker runs
    once, after the pool was handed it. *)
Definition run (scan_fn : string -> result (list string)) (w : nat) (vm : ViewModel)
  : ViewModel :=
  match heap vm !! w with
  | Some worker =>
      if bool_decide (w ∈ pool vm)
      then {| model := model vm; filter_text := filter_text vm; _busy := _busy vm;
              busyChanged := busyChanged vm; _current_worker := _current_worker vm;
              heap := heap vm;
              pool := List.filter (fun x => negb (Nat.eqb x w)) (pool vm);
              posted := posted vm ++ run_emits w (_cancel_event worker) (scan_fn (path worker));
              stdout := stdout vm |}
      else vm
  | None => vm
  end.

(** The closure [on_finished] that [ViewModel.scan] defines for [worker]. *)
Definition on_finished (worker : nat) (vm : ViewModel) : ViewModel :=
  _set_busy false
    (if bool_decide (_current_worker vm = Some worker)
     then {| model := model vm; filter_text := filter_text vm; _busy := _busy vm;
             busyChanged := busyChanged vm; _current_worker := None;
             heap := heap vm; pool := pool vm; posted := posted vm;
             stdout := stdout vm |}
     else vm).

(** [lambda msg: print("Scan error:", msg)] *)
Definition print_scan_error (msg : string) (vm : ViewModel) : ViewModel :=
  {| model := model vm; filter_text := filter_text vm; _busy := _busy vm;
     busyChanged := busyChanged vm; _current_worker := _current_worker vm;
     heap := heap vm; pool := pool vm; posted := posted vm;
     stdout := stdout vm ++ ["Scan error: " +:+ msg] |}.

(** A queued call, run on the foreground thread. *)
Definition call (c : slot) (vm : ViewModel) : ViewModel :=
  match c with
  | to_replace matches => with_model vm (replace (model vm) matches)
  | to_print_error msg => print_scan_error msg vm
  | to_on_finished worker => on_finished worker vm
  end.

(** The event loop of the foreground thread takes the first queued call. *)
Definition deliver (vm : ViewModel) : ViewModel :=
  match posted vm with
  | [] => vm
  | (_, c) :: rest =>
      call c {| model := model vm; filter_text := filter_text vm; _busy := _busy vm;
                busyChanged := busyChanged vm; _current_worker := _current_worker vm;
                heap := heap vm; pool := pool vm; posted := rest;
                stdout := stdout vm |}
  end.

(** What can happen next: a call of the public interface on the foreground
    thread, a worker running on a pool thread, or the event loop
    delivering a queued call. *)
Inductive event : Type :=
| Scan (fs : filesystem) (p : string)
| SetFilter (text : string)
| Replace (paths : list string)
| RemovePath (p : string)
| Run (scan_fn : string -> result (list string)) (w : nat)
| Deliver.

Definition exec (vm : ViewModel) (e : event) : ViewModel :=
  match e with
  | Scan fs p => scan fs p vm
  | SetFilter text => set_filter text vm
  | Replace paths => with_model vm (replace (model vm) paths)
  | RemovePath p => with_model vm (remove_path (model vm) p)
  | Run scan_fn w => run scan_fn w vm
  | Deliver => deliver vm
  end.

Definition exec_all (vm : ViewModel) (evs : list event) : ViewModel :=
  fold_left exec evs vm.

Definition reachable (vm : ViewModel) : Prop :=
  exists evs, vm = exec_all ViewModel_init evs.

(** ** Well-formed trees

    Names within a directory are distinct; a name is not empty, is neither
    ["."] nor [".."] and holds no ["/"]. *)

Definition valid_name (w : string) : bool :=
  negb (String.eqb w "") && negb (String.eqb w ".") && negb (String.eqb w "..")
  && negb (Str.has_char "/" w).

Fixpoint distinct (ws : list string) : bool :=
  match ws with
  | [] => true
  | w :: ws' => negb (Str.mem w ws') && distinct ws'
  end.

Fixpoint well_formed (n : node) : bool :=
  match n with
  | Dir entries =>
      distinct (map fst entries) &&
      forallb (fun e => valid_name (fst e) && well_formed (snd e)) entries
  | _ => true
  end.

(** No symbolic link anywhere below. *)
Fixpoint link_free (n : node) : bool :=
  match n with
  | Dir entries => forallb (fun e => link_free (snd e)) entries
  | Link _ => false
  | _ => true
  end.

(** Every directory of the snapshot is well formed. *)
Definition sane (fs : filesystem) : Prop :=
  well_formed (Dir (root_entries fs)) = true.

(** The display name of a store entry holds the filter text, case ignored. *)
Definition name_contains (text p : string) : Prop :=
  exists pre post, Str.lower (basename p) = pre +:+ Str.lower text +:+ post.

(** The worker object exists and its cancel flag is set. *)
Definition cancelled (vm : ViewModel) (w : nat) : Prop :=
  exists worker, heap vm !! w = Some worker /\ _cancel_event worker = true.


(** The anchored path of canonical names. *)
Definition canonical (c : list string) : PurePath :=
  {| absolute := true; parts := c |}.

(** The entry exists and is a regular file. *)
Definition is_File (o : option node) : bool :=
  match o with
  | Some File => true
  | _ => false
  end.

(** The entries a scan keeps below the directory at [base]. *)
Definition kept (fs : filesystem) (base : list string) (exts : list string)
           (rel : list string) : bool :=
  is_File (lstat fs (base ++ rel)) &&
  Str.mem (Str.lower (suffix (canonical (base ++ rel)))) (map Str.lower exts).

(** The current worker is an object of the heap. *)
Definition current_exists (vm : ViewModel) : Prop :=
  forall w, _current_worker vm = Some w -> w < length (heap vm).

(** The controller is idle: not busy, and no worker is current. *)
Definition Idle (vm : ViewModel) : Prop :=
  _busy vm = false /\ _current_worker vm = None.

(** The scan keeps the entry [p]: a regular file, links followed, whose own
    lower-cased suffix is among the lower-cased extensions. *)
Definition matches (fs : filesystem) (exts : list string) (p : PurePath) : bool :=
  is_file fs p && Str.mem (Str.lower (suffix p)) (map Str.lower exts).

(** The canonical names of what the entry [p] leads to. *)
Definition target (fs : filesystem) (p : PurePath) : list string :=
  default [] (stat fs p).

(** A call of the model's interface. *)
Inductive model_call : Type :=
| call_data (index : QModelIndex) (role : Z)
| call_replace (paths : list string)
| call_remove_path (p : string).

(** The model after a call; a [data] that raises has changed nothing. *)
Definition model_exec (m : ImageListModel) (c : model_call) : ImageListModel :=
  match c with
  | call_data i role =>
      match data m i role with
      | Ok (_, m') => m'
      | Exc _ => m
      end
  | call_replace paths => replace m paths
  | call_remove_path p => remove_path m p
  end.

(** Every cached icon belongs to a path of the store and is the icon made
    for that path. *)
Definition thumbs_fresh (m : ImageListModel) : Prop :=
  forall k icon, _thumbs m !! k = Some icon ->
                 k ∈ _paths m /\ icon = _make_icon m k.

(** [MainWindow._counts]: the rows the proxy shows and the rows of the
    model. *)
Definition _counts (vm : ViewModel) : nat * nat :=
  let total := rowCount (model vm) in
  let shown := length (shown_rows (filter_text vm) (model vm)) in
  (shown, total).

(** Successive values differ, the first one from [b]. *)
Fixpoint alternating (b : bool) (log : list bool) : Prop :=
  match log with
  | [] => True
  | x :: rest => x = negb b /\ alternating x rest
  end.

(** The worker object exists and its cancel flag is clear. *)
Definition live (vm : ViewModel) (w : nat) : Prop :=
  exists worker, heap vm !! w = Some worker /\ _cancel_event worker = false.

(** How the workers, the pool and the queue hang together: a worker of the
    pool is an object of the heap; a queued call was sent by a worker that
    has run, and a finished call names its sender; a worker of the pool is
    cancelled or current; the current worker is not cancelled. *)
Definition pool_inv (vm : ViewModel) : Prop :=
  (forall w, w ∈ pool vm -> w < length (heap vm)) /\
  (forall s c, (s, c) ∈ posted vm ->
     s < length (heap vm) /\ (s ∉ pool vm) /\
     forall u, c = to_on_finished u -> u = s) /\
  (forall w, w ∈ pool vm -> cancelled vm w \/ _current_worker vm = Some w) /\
  (forall w, _current_worker vm = Some w -> live vm w).




(** [proxy.mapToSource(proxy_index)]: the index of the source row behind a
    row the proxy shows; the invalid index for an invalid index and for a row
    beyond those shown. An index of the proxy is given by its row. *)
Definition mapToSource (text : string) (m : ImageListModel) (proxy_index : QModelIndex)
  : QModelIndex :=
  if isValid proxy_index
  then match shown_rows text m !! Z.to_nat (row proxy_index) with
       | Some r => index m r
       | None => invalid_index
       end
  else invalid_index.

(** A key put into a dict: a new key goes last, a known one stays where
    it is. *)
Definition dict_add (keys : list string) (x : string) : list string :=
  if bool_decide (x ∈ keys) then keys else keys ++ [x].

(** [list(dict.fromkeys(l))]: the first occurrences, in their order. *)
Definition dict_fromkeys (l : list string) : list string :=
  fold_left dict_add l [].

(** One turn of the loop of [MainWindow._selected_filepaths]; only a string
    comes back under the file path role. *)
Definition selected_step (text : string)
           (acc : result (list string * ImageListModel)) (proxy_index : QModelIndex)
  : result (list string * ImageListModel) :=
  '(paths, m) ← acc;
  if negb (isValid proxy_index) then Ok (paths, m)
  else
    let src_index := mapToSource text m proxy_index in
    '(path, m') ← data m src_index FILEPATH_ROLE;
    match path with
    | Some (VStr s) => if String.eqb s "" then Ok (paths, m') else Ok (paths ++ [s], m')
    | _ => Ok (paths, m')
    end.

(** [MainWindow._selected_filepaths], given the indexes the selection model
    holds; the model comes back with the paths. *)
Definition _selected_filepaths (vm : ViewModel) (sel_indexes : list QModelIndex)
  : result (list string * ImageListModel) :=
  '(paths, m) ← fold_left (selected_step (filter_text vm)) sel_indexes (Ok ([], model vm));
  Ok (dict_fromkeys paths, m).

(** The deletion loop of [MainWindow._delete_selected_files]: [os_remove]
    is what [os.remove] does to each path, returning or raising; the model
    and the collected error lines come back. The paths are those of
    [_selected_filepaths], each listed once, so [os.remove] is asked once
    for each. *)
Definition delete_paths (os_remove : string -> result ()) (paths : list string)
           (m : ImageListModel) : ImageListModel * list string :=
  fold_left
    (fun acc p =>
       match os_remove p with
       | Ok _ => (remove_path (fst acc) p, snd acc)
       | Exc exc => (fst acc, snd acc ++ [basename p +:+ ": " +:+ exc])
       end)
    paths (m, []).

(** The error line of a path whose [os.remove] raised. *)
Definition error_line (os_remove : string -> result ()) (p : string) : option string :=
  match os_remove p with
  | Ok _ => None
  | Exc exc => Some (basename p +:+ ": " +:+ exc)
  end.

(** The call returned. *)
Definition returned {A : Type} (r : result A) : bool :=
  match r with
  | Ok _ => true
  | Exc _ => false
  end.

(** The path a selected index of the proxy stands for, unless it is empty. *)
Definition selected_path (text : string) (m : ImageListModel) (proxy_index : QModelIndex)
  : option string :=
  if isValid proxy_index
  then r ← shown_rows text m !! Z.to_nat (row proxy_index);
       s ← _paths m !! r;
       if String.eqb s "" then None else Some s
  else None.

(** ** Sample data *)

(** The tree of the scan test under ["/pics"], next to a second directory
    and an empty one; the process works in ["/pics"]. *)
Definition pics : filesystem :=
  {| root_entries :=
       [("pics", Dir [("a.png", File); ("b.JPG", File); ("c.txt", File);
                      ("sub", Dir [("d.webp", File)])]);
        ("etc", Dir [("x.gif", File); ("passwd", File)]);
        ("empty", Dir [])];
     cwd := ["pics"] |}.

(** A directory with an image and a link to that image. *)
Definition pics_linked : filesystem :=
  {| root_entries :=
       [("pics", Dir [("a.png", File); ("z.png", Link "a.png")])];
     cwd := [] |}.

(** [scan_images(path)] with the default extensions, on the snapshot [fs]. *)
Definition scanner (fs : filesystem) (p : string) : result (list string) :=
  scan_images fs p IMAGE_EXTENSIONS.

(** * Properties *)

(** ** The image list model *)

Lemma list_index_None x l : list_index x l = None <-> x ∉ l.
Proof.
  induction l as [|y l IH]; simpl.
  - split; [intros _; apply not_elem_of_nil | done].
  - destruct (String.eqb_spec y x) as [->|Hne].
    + split; [done | intros H; destruct H; left].
    + rewrite not_elem_of_cons. destruct (list_index x l); simpl.
      * split; [done | intros [_ H]; by apply IH in H].
      * split; [intros _; split; [congruence | by apply IH] | done].
Qed.

Lemma list_index_Some x l r :
  list_index x l = Some r ->
  exists before after,
    l = before ++ x :: after /\ (x ∉ before) /\ r = length before /\
    delete r l = before ++ after.
Proof.
  revert r. induction l as [|y l IH]; intros r; simpl; [done|].
  destruct (String.eqb_spec y x) as [->|Hne].
  - intros [= <-]. exists [], l. repeat split; try done. apply not_elem_of_nil.
  - destruct (list_index x l) as [r'|] eqn:E; simpl; [|done].
    intros [= <-]. destruct (IH r' eq_refl) as (b & a & -> & Hb & -> & Hd).
    exists (y :: b), a. repeat split; simpl; try done.
    + rewrite not_elem_of_cons. split; [congruence | done].
    + by rewrite Hd.
Qed.

(** C7. [remove_path] leaves the model as it is, notifications included,
    when the path is absent; when the path is present it removes one entry,
    the first that equals the path, keeps every other entry in its place
    and emits the removal signals of that single row once. *)
Theorem remove_path_spec (m : ImageListModel) (p : string) :
  ((p ∉ _paths m) /\ remove_path m p = m) \/
  (exists before after,
      _paths m = before ++ p :: after /\ (p ∉ before) /\
      _paths (remove_path m p) = before ++ after /\
      emitted (remove_path m p) =
        emitted m ++ [rowsAboutToBeRemoved (length before) (length before);
                      rowsRemoved (length before) (length before)]).
Proof.
  unfold remove_path. destruct (list_index p (_paths m)) as [r|] eqn:E.
  - right. destruct (list_index_Some _ _ _ E) as (b & a & Hl & Hb & -> & Hd).
    exists b, a. simpl. by rewrite Hd.
  - left. split; [by apply list_index_None | done].
Qed.

Lemma getitem_in_range (l : list string) (i : Z) :
  (0 <= i < Z.of_nat (length l))%Z -> exists x, getitem l i = Ok x /\ l !! Z.to_nat i = Some x.
Proof.
  intros H. unfold getitem. cbv zeta.
  destruct (Z.ltb_spec i 0); [lia|].
  destruct (Z.ltb_spec i 0); [lia|].
  destruct (l !! Z.to_nat i) as [x|] eqn:E; [by exists x|].
  apply lookup_ge_None in E. lia.
Qed.

Lemma getitem_beyond (l : list string) (i : Z) :
  (Z.of_nat (length l) <= i)%Z -> getitem l i = Exc "list index out of range".
Proof.
  intros H. unfold getitem. cbv zeta.
  destruct (Z.ltb_spec i 0); [lia|].
  destruct (Z.ltb_spec i 0); [lia|].
  destruct (l !! Z.to_nat i) as [x|] eqn:E; [|done].
  apply lookup_lt_Some in E. lia.
Qed.

(** C10, amended. [data] returns [None] without faulting for every invalid
    index, and for every valid index whose row is below [rowCount] when the
    role is none of display, decoration and file path. *)
Theorem data_returns_None (m : ImageListModel) (index : QModelIndex) (role : Z)
  (H : isValid index = false \/
       (isValid index = true /\ (row index < Z.of_nat (rowCount m))%Z /\
        role <> displayRole /\ role <> decorationRole /\ role <> FILEPATH_ROLE)) :
  data m index role = Ok (None, m).
Proof.
  unfold data. destruct H as [-> | (Hv & Hr & H1 & H2 & H3)]; [done|].
  rewrite Hv. simpl.
  assert (0 <= row index)%Z as H0.
  { unfold isValid in Hv. destruct (Z.leb_spec 0 (row index)); [done|]. by simpl in Hv. }
  destruct (getitem_in_range (_paths m) (row index)) as (x & -> & _); [done|].
  simpl. rewrite (proj2 (Z.eqb_neq _ _) H1), (proj2 (Z.eqb_neq _ _) H3),
    (proj2 (Z.eqb_neq _ _) H2). done.
Qed.

Lemma data_returns_None_witness :
  data (ImageListModel_init ["/pics/a.png"] 64)
       {| row := 0; column := 0; has_model := true |} 7
  = Ok (None, ImageListModel_init ["/pics/a.png"] 64).
Proof.
  apply data_returns_None. right. unfold rowCount. simpl.
  repeat split; try reflexivity; discriminate.
Defined.

(** C10 as stated fails: a valid index kept from before a removal has its
    row at [rowCount], and [data] faults on the list access. *)
Lemma data_faults_on_stale_index :
  let m := ImageListModel_init ["/pics/a.png"] 64 in
  let i := index m 0 in
  isValid i = true /\
  data (remove_path m "/pics/a.png") i 7 = Exc "list index out of range".
Proof. split; reflexivity. Qed.

(** ** The scan controller *)

Lemma heap_set_busy value vm : heap (_set_busy value vm) = heap vm.
Proof. unfold _set_busy. by destruct (negb _). Qed.

Lemma heap_call c vm : heap (call c vm) = heap vm.
Proof.
  destruct c; simpl; try done.
  unfold on_finished. rewrite heap_set_busy. by destruct (bool_decide _).
Qed.

Lemma heap_deliver vm : heap (deliver vm) = heap vm.
Proof.
  unfold deliver. destruct (posted vm) as [|[s c] rest]; [done|].
  by rewrite heap_call.
Qed.

Lemma heap_run scan_fn w vm : heap (run scan_fn w vm) = heap vm.
Proof.
  unfold run. destruct (heap vm !! w); [|done]. by destruct (bool_decide _).
Qed.

Lemma cancelled_cancel_current vm w :
  cancelled vm w -> cancelled (cancel_current vm) w.
Proof.
  intros (worker & Hw & Hc). unfold cancel_current.
  destruct (_current_worker vm) as [cw|]; [|by exists worker].
  unfold cancelled. simpl. destruct (decide (cw = w)) as [->|Hne].
  - exists (cancel worker). by rewrite list_lookup_alter_eq, Hw.
  - exists worker. by rewrite list_lookup_alter_ne.
Qed.

Lemma cancelled_exec vm e w : cancelled vm w -> cancelled (exec vm e) w.
Proof.
  intros H. destruct e as [fs p|text|paths|p|scan_fn w'|]; simpl; try done.
  - unfold scan. destruct (_ || _); [done|].
    apply cancelled_cancel_current in H. destruct H as (worker & Hw & Hc).
    exists worker. split; [|done]. unfold start_worker. simpl.
    rewrite heap_set_busy. by apply lookup_app_l_Some.
  - destruct H as (worker & Hw & Hc). exists worker. by rewrite heap_run.
  - destruct H as (worker & Hw & Hc). exists worker. by rewrite heap_deliver.
Qed.

Lemma cancelled_exec_all evs vm w :
  cancelled vm w -> cancelled (exec_all vm evs) w.
Proof.
  revert vm. induction evs as [|e evs IH]; intros vm H; [done|].
  simpl. apply IH. by apply cancelled_exec.
Qed.

Lemma run_cancelled scan_fn w vm :
  cancelled vm w ->
  posted (run scan_fn w vm) = posted vm \/
  posted (run scan_fn w vm) = posted vm ++ [(w, to_on_finished w)].
Proof.
  intros (worker & Hw & Hc). unfold run. rewrite Hw.
  destruct (bool_decide _); [|by left].
  right. simpl. rewrite Hc. unfold run_emits. by destruct (scan_fn _).
Qed.

Lemma current_set_busy value vm :
  _current_worker (_set_busy value vm) = _current_worker vm.
Proof. unfold _set_busy. by destruct (negb _). Qed.

Lemma current_exists_exec vm e : current_exists vm -> current_exists (exec vm e).
Proof.
  unfold current_exists. intros H.
  destruct e as [fs p|text|paths|p|scan_fn w'|]; simpl; try done.
  - unfold scan. destruct (_ || _); [done|]. unfold start_worker. simpl.
    intros w [= <-]. rewrite length_app. simpl. lia.
  - intros w. rewrite heap_run. unfold run.
    destruct (heap vm !! w'); [|by apply H]. destruct (bool_decide _); by apply H.
  - intros w. rewrite heap_deliver. unfold deliver.
    destruct (posted vm) as [|[s c] rest]; [by apply H|].
    destruct c as [matches|msg|w'']; simpl; try by apply H.
    unfold on_finished. rewrite current_set_busy.
    destruct (bool_decide _); [done | by apply H].
Qed.

Lemma reachable_current_exists vm : reachable vm -> current_exists vm.
Proof.
  intros [evs ->]. induction evs as [|e evs IH] using rev_ind.
  - by intros w.
  - unfold exec_all. rewrite fold_left_app. simpl. by apply current_exists_exec.
Qed.

(** C2, amended. A scan requested while worker [w] is in flight sets the
    cancel flag of [w] first and only then creates and starts the new
    worker, which becomes the current one. Whatever happens afterwards, when
    [w] gets to run it emits its finished signal at most: no result and no
    error of [w] is queued after the request. What [w] had emitted before
    the request stays queued. *)
Theorem superseded_worker_is_silent
  (vm : ViewModel) (fs : filesystem) (p : string) (w : nat)
  (evs : list event) (scan_fn : string -> result (list string))
  (Hreach : reachable vm)
  (Hdir : os_path_isdir fs p = true)
  (Hcur : _current_worker vm = Some w) :
  scan fs p vm = start_worker p (_set_busy true (cancel_current vm)) /\
  cancelled (cancel_current vm) w /\
  pool (cancel_current vm) = pool vm /\
  _current_worker (scan fs p vm) = Some (length (heap vm)) /\
  heap (scan fs p vm) !! length (heap vm) = Some {| path := p; _cancel_event := false |} /\
  pool (scan fs p vm) = pool vm ++ [length (heap vm)] /\
  _busy (scan fs p vm) = true /\
  (posted (run scan_fn w (exec_all (scan fs p vm) evs))
     = posted (exec_all (scan fs p vm) evs) \/
   posted (run scan_fn w (exec_all (scan fs p vm) evs))
     = posted (exec_all (scan fs p vm) evs) ++ [(w, to_on_finished w)]).
Proof.
  pose proof (reachable_current_exists vm Hreach w Hcur) as Hobj.
  assert (scan fs p vm = start_worker p (_set_busy true (cancel_current vm))) as Hscan.
  { unfold scan. unfold os_path_isdir in Hdir.
    apply andb_true_iff in Hdir as [Hne Hd].
    apply negb_true_iff in Hne. rewrite Hne. unfold os_path_isdir.
    by rewrite Hne, Hd. }
  assert (cancelled (cancel_current vm) w) as Hc.
  { apply lookup_lt_is_Some in Hobj as [worker Hw].
    unfold cancel_current. rewrite Hcur. exists (cancel worker). simpl.
    by rewrite list_lookup_alter_eq, Hw. }
  assert (length (heap (cancel_current vm)) = length (heap vm)) as Hlen.
  { unfold cancel_current. rewrite Hcur. simpl. apply length_alter. }
  assert (pool (cancel_current vm) = pool vm) as Hpool.
  { unfold cancel_current. by rewrite Hcur. }
  assert (forall v x, pool (_set_busy v x) = pool x) as Hpb.
  { intros v x. unfold _set_busy. by destruct (negb _). }
  assert (forall x, _busy (_set_busy true x) = true) as Hbusy.
  { intros x. unfold _set_busy. by destruct (_busy x) eqn:E. }
  split; [done|]. split; [done|]. split; [done|].
  rewrite Hscan. unfold start_worker at 1 2 3 4. simpl.
  rewrite heap_set_busy, Hlen, Hpb, Hpool, Hbusy.
  split; [done|]. split.
  { rewrite lookup_app_r; rewrite Hlen; [|lia]. by rewrite Nat.sub_diag. }
  split; [done|]. split; [done|].
  apply run_cancelled, cancelled_exec_all.
  destruct Hc as (worker & Hw & Hf). exists worker. split; [|done].
  unfold start_worker. simpl. rewrite heap_set_busy. by apply lookup_app_l_Some.
Qed.

Lemma superseded_worker_is_silent_witness :
  let vm := scan pics "/pics" ViewModel_init in
  let vm' := exec_all (scan pics "/etc" vm) [Deliver; SetFilter "a"] in
  posted (run (scanner pics) 0 vm') = posted vm' \/
  posted (run (scanner pics) 0 vm') = posted vm' ++ [(0, to_on_finished 0)].
Proof.
  intros vm vm'.
  apply (superseded_worker_is_silent vm pics "/etc" 0 [Deliver; SetFilter "a"]
           (scanner pics)).
  - exists [Scan pics "/pics"]. reflexivity.
  - vm_compute. reflexivity.
  - vm_compute. reflexivity.
Defined.

(** C2 as stated fails: worker 0 emits its result, the next scan request
    then finds it still current and cancels it, and the queued result of the
    cancelled worker is delivered into the store all the same. It stays
    there for good when the newer scan fails. *)
Lemma cancelled_result_reaches_store :
  let vm := exec_all ViewModel_init
              [Scan pics "/pics"; Run (scanner pics) 0; Scan pics "/etc"] in
  let vm' := exec_all vm [Deliver; Deliver; Run (fun _ => Exc "disk gone") 1;
                          Deliver; Deliver] in
  cancelled vm 0 /\
  _current_worker vm = Some 1 /\
  posted vm = [(0, to_replace ["/pics/a.png"; "/pics/b.JPG"; "/pics/sub/d.webp"]);
               (0, to_on_finished 0)] /\
  _paths (model vm) = [] /\
  _paths (model (deliver vm)) = ["/pics/a.png"; "/pics/b.JPG"; "/pics/sub/d.webp"] /\
  posted vm' = [] /\ pool vm' = [] /\ _current_worker vm' = None /\
  _paths (model vm') = ["/pics/a.png"; "/pics/b.JPG"; "/pics/sub/d.webp"].
Proof.
  split; [|by vm_compute].
  exists {| path := "/pics"; _cancel_event := true |}. by vm_compute.
Qed.

(** C3. The finished signal of a superseded worker resets the busy flag
    while the worker that superseded it is still in flight. *)
Theorem superseded_finish_resets_busy :
  let vm := exec_all ViewModel_init
              [Scan pics "/pics"; Scan pics "/etc"; Run (scanner pics) 0] in
  cancelled vm 0 /\
  _busy vm = true /\ _current_worker vm = Some 1 /\ pool vm = [1] /\
  posted vm = [(0, to_on_finished 0)] /\
  _busy (deliver vm) = false /\
  busyChanged (deliver vm) = [true; false] /\
  _current_worker (deliver vm) = Some 1 /\ pool (deliver vm) = [1] /\
  model (deliver vm) = model vm.
Proof.
  split; [|by vm_compute].
  exists {| path := "/pics"; _cancel_event := true |}. by vm_compute.
Qed.

(** C4, amended. A scan request with the empty string or with a path that
    is not a directory replaces the store with the empty sequence, which is
    notified as a reset, and changes nothing else: the busy flag, the
    current worker, the pool and the queued calls stay as they were, so an
    idle controller stays idle. *)
Theorem invalid_scan_clears (vm : ViewModel) (fs : filesystem) (p : string)
  (H : p = "" \/ os_path_isdir fs p = false) :
  _paths (model (scan fs p vm)) = [] /\
  emitted (model (scan fs p vm)) = emitted (model vm) ++ [modelAboutToBeReset; modelReset] /\
  _busy (scan fs p vm) = _busy vm /\
  busyChanged (scan fs p vm) = busyChanged vm /\
  _current_worker (scan fs p vm) = _current_worker vm /\
  heap (scan fs p vm) = heap vm /\
  pool (scan fs p vm) = pool vm /\
  posted (scan fs p vm) = posted vm /\
  stdout (scan fs p vm) = stdout vm /\
  (Idle vm -> Idle (scan fs p vm)).
Proof.
  assert (scan fs p vm = with_model vm (replace (model vm) [])) as ->.
  { unfold scan. destruct H as [-> | ->]; [done|]. by rewrite orb_true_r. }
  repeat (split; [done|]). intros [Hb Hc]. by split.
Qed.

Lemma invalid_scan_clears_witness :
  let vm := with_model ViewModel_init (replace (model ViewModel_init) ["/pics/a.png"]) in
  _paths (model (scan pics "/pics/a.png" vm)) = [] /\
  _busy (scan pics "/pics/a.png" vm) = false.
Proof.
  intros vm.
  destruct (invalid_scan_clears vm pics "/pics/a.png") as (H1 & _ & H2 & _).
  - right. vm_compute. reflexivity.
  - split; [exact H1 | exact H2].
Defined.

(** C4 as stated fails: while a scan is in flight, a request with the empty
    string, or with the path of a regular file, leaves the busy flag set and
    the worker current. *)
Lemma invalid_scan_keeps_busy :
  let vm := scan pics "/pics" ViewModel_init in
  _busy (scan pics "" vm) = true /\
  _current_worker (scan pics "" vm) = Some 0 /\
  _busy (scan pics "/pics/a.png" vm) = true /\
  ~ Idle (scan pics "" vm).
Proof.
  repeat split; try by vm_compute.
  intros [H _]. by vm_compute in H.
Qed.

(** C5. A worker still current whose scan raises queues its error and its
    finished signal; when the foreground thread delivers the two, the error
    text is printed, the store is left as it is, the busy flag is cleared
    and no worker is current any more. The event loop goes on with the
    calls queued behind. *)
Theorem live_failure_is_reported
  (vm : ViewModel) (scan_fn : string -> result (list string))
  (w : nat) (worker : ScanWorker) (exc : string)
  (Hobj : heap vm !! w = Some worker)
  (Hlive : _cancel_event worker = false)
  (Hpool : w ∈ pool vm)
  (Hexc : scan_fn (path worker) = Exc exc) :
  posted (run scan_fn w vm)
    = posted vm ++ [(w, to_print_error exc); (w, to_on_finished w)] /\
  model (run scan_fn w vm) = model vm /\
  _busy (run scan_fn w vm) = _busy vm /\
  forall (vm1 : ViewModel) (rest : list (nat * slot)),
    posted vm1 = (w, to_print_error exc) :: (w, to_on_finished w) :: rest ->
    _current_worker vm1 = Some w ->
    model (deliver (deliver vm1)) = model vm1 /\
    _busy (deliver (deliver vm1)) = false /\
    _current_worker (deliver (deliver vm1)) = None /\
    Idle (deliver (deliver vm1)) /\
    stdout (deliver (deliver vm1)) = stdout vm1 ++ ["Scan error: " +:+ exc] /\
    posted (deliver (deliver vm1)) = rest.
Proof.
  unfold run. rewrite Hobj, (bool_decide_eq_true_2 _ Hpool). simpl.
  rewrite Hlive, Hexc. simpl.
  split; [done|]. split; [done|]. split; [done|].
  intros vm1 rest Hq Hcur.
  remember (deliver vm1) as vm2 eqn:E.
  unfold deliver in E. rewrite Hq in E. simpl in E. subst vm2.
  unfold deliver. simpl. unfold on_finished. simpl.
  rewrite Hcur, bool_decide_eq_true_2 by done.
  unfold Idle, _set_busy. simpl. by destruct (_busy vm1).
Qed.

Lemma live_failure_is_reported_witness :
  let vm := run (fun _ => Exc "disk gone") 0 (scan pics "/pics" ViewModel_init) in
  posted vm = [(0, to_print_error "disk gone"); (0, to_on_finished 0)] /\
  _busy (deliver (deliver vm)) = false /\
  _paths (model (deliver (deliver vm))) = [] /\
  stdout (deliver (deliver vm)) = ["Scan error: disk gone"].
Proof.
  intros vm.
  destruct (live_failure_is_reported (scan pics "/pics" ViewModel_init)
              (fun _ => Exc "disk gone") 0
              {| path := "/pics"; _cancel_event := false |} "disk gone")
    as (Hq & _ & _ & Hd).
  - vm_compute. reflexivity.
  - reflexivity.
  - vm_compute. left.
  - reflexivity.
  - destruct (Hd vm []) as (Hm & Hb & _ & _ & Hs & _).
    + exact Hq.
    + vm_compute. reflexivity.
    + split; [exact Hq|]. split; [exact Hb|]. split; [|exact Hs].
      rewrite Hm. vm_compute. reflexivity.
Defined.

(** ** Strings *)

Lemma startswith_spec pre s :
  Str.startswith pre s = true <-> exists post, s = pre +:+ post.
Proof.
  revert s. induction pre as [|a pre IH]; intros s; simpl.
  - split; [intros _; by exists s | done].
  - destruct s as [|b s].
    + split; [done | intros [post H]; discriminate].
    + rewrite andb_true_iff, IH. split.
      * intros [Hab [post ->]]. apply Ascii.eqb_eq in Hab as ->. by exists post.
      * intros [post [= -> ->]]. split; [apply Ascii.eqb_refl | by exists post].
Qed.

Lemma contains_spec needle hay :
  Str.contains needle hay = true <-> exists pre post, hay = pre +:+ needle +:+ post.
Proof.
  induction hay as [|c hay IH].
  - simpl. rewrite orb_false_r, startswith_spec. split.
    + intros [post ->]. by exists "", post.
    + intros [pre [post H]]. destruct pre; [by exists post | discriminate].
  - cbn [Str.contains]. rewrite orb_true_iff, startswith_spec, IH. split.
    + intros [[post ->] | [pre [post ->]]]; [by exists "", post|].
      by exists (String c pre), post.
    + intros [pre [post H]]. destruct pre as [|a pre].
      * left. by exists post.
      * right. injection H as -> ->. by exists pre, post.
Qed.

Lemma contains_empty hay : Str.contains "" hay = true.
Proof. by destruct hay. Qed.

Lemma has_char_cons ch c s :
  Str.has_char ch (String c s) = Ascii.eqb ch c || Str.has_char ch s.
Proof. unfold Str.has_char. cbn [Str.contains Str.startswith]. by rewrite andb_true_r. Qed.

Lemma rfind_from_absent ch s i best :
  Str.has_char ch s = false -> Str.rfind_from ch s i best = best.
Proof.
  revert i best. induction s as [|c s IH]; intros i best H; [done|].
  rewrite has_char_cons in H. apply orb_false_iff in H as [Hc Hs].
  simpl. rewrite Ascii.eqb_sym, Hc. by apply IH.
Qed.

Lemma rfind_from_app ch a b i best :
  Str.rfind_from ch (a +:+ b) i best
  = Str.rfind_from ch b (i + Str.len a)%Z (Str.rfind_from ch a i best).
Proof.
  revert i best. induction a as [|c a IH]; intros i best; simpl.
  - unfold Str.len. simpl. by rewrite Z.add_0_r.
  - rewrite IH. f_equal. unfold Str.len. simpl. lia.
Qed.

Lemma append_cons x a b : String x a +:+ b = String x (a +:+ b).
Proof. reflexivity. Qed.

Lemma append_assoc a b c : (a +:+ b) +:+ c = a +:+ (b +:+ c).
Proof.
  induction a as [|x a IH]; [reflexivity|]. rewrite !append_cons. by rewrite IH.
Qed.

Lemma length_append a b :
  String.length (a +:+ b) = String.length a + String.length b.
Proof.
  induction a as [|x a IH]; [reflexivity|]. rewrite append_cons. simpl. by rewrite IH.
Qed.

Lemma drop_app a b : Str.drop (String.length a) (a +:+ b) = b.
Proof. induction a as [|c a IH]; [by destruct b | simpl; exact IH]. Qed.

(** [basename] is the final segment of a path. *)
Lemma basename_final_segment dir name :
  Str.has_char "/" name = false -> basename (dir +:+ "/" +:+ name) = name.
Proof.
  intros H. unfold basename, Str.rfind, Str.slice_from.
  rewrite rfind_from_app. change ("/" +:+ name) with (String "/" name).
  cbn [Str.rfind_from]. rewrite Ascii.eqb_refl, rfind_from_absent by done.
  replace (Z.to_nat (0 + Str.len dir + 1)) with (String.length (dir +:+ "/")).
  - change (dir +:+ String "/" name) with (dir +:+ ("/" +:+ name)).
    rewrite <- (append_assoc dir "/" name). apply drop_app.
  - unfold Str.len. rewrite length_append. simpl. lia.
Qed.

(** ** The filtered view *)

Lemma index_in_range m r :
  r < rowCount m -> index m r = {| row := Z.of_nat r; column := 0; has_model := true |}.
Proof. intros H. unfold index. by rewrite bool_decide_eq_true_2. Qed.

Lemma getitem_lookup (l : list string) r x :
  l !! r = Some x -> getitem l (Z.of_nat r) = Ok x.
Proof.
  intros H. destruct (getitem_in_range l (Z.of_nat r)) as (y & -> & Hy).
  - apply lookup_lt_Some in H. lia.
  - rewrite Nat2Z.id in Hy. congruence.
Qed.

Lemma display_text_lookup m r x :
  _paths m !! r = Some x -> display_text m r = basename x.
Proof.
  intros H. unfold display_text, data.
  rewrite index_in_range by (by apply lookup_lt_Some in H).
  assert (isValid {| row := Z.of_nat r; column := 0; has_model := true |} = true) as ->.
  { unfold isValid. simpl. rewrite !andb_true_r. apply Z.leb_le. lia. }
  simpl. by rewrite (getitem_lookup _ _ _ H).
Qed.

Lemma filepath_lookup m r x : _paths m !! r = Some x -> filepath m r = x.
Proof.
  intros H. unfold filepath, data.
  rewrite index_in_range by (by apply lookup_lt_Some in H).
  assert (isValid {| row := Z.of_nat r; column := 0; has_model := true |} = true) as ->.
  { unfold isValid. simpl. rewrite !andb_true_r. apply Z.leb_le. lia. }
  simpl. by rewrite (getitem_lookup _ _ _ H).
Qed.

Lemma filter_rows (P : string -> bool) (keep : nat -> bool) (get : nat -> string)
      (l : list string) (k : nat) :
  (forall r x, l !! r = Some x -> keep (k + r) = P x /\ get (k + r) = x) ->
  map get (List.filter keep (seq k (length l))) = List.filter P l.
Proof.
  revert k. induction l as [|x l IH]; intros k H; [done|].
  simpl. destruct (H 0 x eq_refl) as [Hk Hg]. rewrite Nat.add_0_r in Hk, Hg.
  assert (map get (List.filter keep (seq (S k) (length l))) = List.filter P l) as Hrest.
  { apply IH. intros r y Hr. rewrite Nat.add_succ_comm. by apply (H (S r) y). }
  rewrite Hk. destruct (P x); simpl; by rewrite Hrest, ?Hg.
Qed.

Lemma filter_sublist (P : string -> bool) (l : list string) :
  sublist (List.filter P l) l.
Proof.
  induction l as [|x l IH]; simpl; [constructor|].
  destruct (P x); by constructor.
Qed.

Lemma filter_all (P : string -> bool) (l : list string) :
  (forall x, P x = true) -> List.filter P l = l.
Proof.
  intros H. induction l as [|x l IH]; simpl; [done|]. by rewrite H, IH.
Qed.

Lemma filtered_view_filter (m : ImageListModel) (text : string) :
  map (filepath m) (shown_rows text m)
  = List.filter (fun p => Str.contains (Str.lower text) (Str.lower (basename p)))
                (_paths m).
Proof.
  unfold shown_rows, rowCount. apply filter_rows. intros r x H. simpl.
  unfold filterAcceptsRow. by rewrite (display_text_lookup _ _ _ H), (filepath_lookup _ _ _ H).
Qed.

(** C6. After [replace(paths)], the view under the filter [text] is [paths]
    restricted to the entries whose display name, the final segment of the
    path, contains [text] with case ignored, in the order of [paths]; under
    the empty filter it is [paths] itself. *)
Theorem filtered_view_spec (vm : ViewModel) (paths : list string) (text : string) :
  filtered_view (set_filter text (with_model vm (replace (model vm) paths)))
  = List.filter (fun p => Str.contains (Str.lower text) (Str.lower (basename p))) paths /\
  (forall p, Str.contains (Str.lower text) (Str.lower (basename p)) = true
             <-> name_contains text p) /\
  sublist (filtered_view (set_filter text (with_model vm (replace (model vm) paths)))) paths /\
  (forall dir name, Str.has_char "/" name = false ->
                    basename (dir +:+ "/" +:+ name) = name) /\
  filtered_view (set_filter "" (with_model vm (replace (model vm) paths))) = paths.
Proof.
  unfold filtered_view. simpl. rewrite !filtered_view_filter. simpl.
  split; [done|]. split; [intros p; apply contains_spec|].
  split; [apply filter_sublist|]. split; [apply basename_final_segment|].
  apply filter_all. intros x. apply contains_empty.
Qed.

(** The filter test of the repository: of ["a.png"], ["b.jpg"] and
    ["notes.txt"], the filter ["a."] shows ["a.png"] alone. *)
Example test_viewmodel_filter :
  filtered_view (set_filter "a." (with_model ViewModel_init
                   (replace (model ViewModel_init) ["a.png"; "b.jpg"; "notes.txt"])))
  = ["a.png"].
Proof. reflexivity. Qed.

(** ** The file system *)

Lemma node_ind (P : node -> Prop) :
  P File -> P Special -> (forall target, P (Link target)) ->
  (forall entries, Forall (fun e => P (snd e)) entries -> P (Dir entries)) ->
  forall n, P n.
Proof.
  intros HF HS HL HD. fix IH 1. intros [| |entries|target]; [done|done| |done].
  apply HD. induction entries as [|e entries IHe]; constructor; [apply IH | apply IHe].
Qed.

Lemma mem_elem_of x xs : Str.mem x xs = true <-> x ∈ xs.
Proof.
  unfold Str.mem. rewrite existsb_exists. split.
  - intros (y & Hy & ->%String.eqb_eq). by apply list_elem_of_In.
  - intros H. exists x. split; [by apply list_elem_of_In | apply String.eqb_refl].
Qed.

Lemma distinct_NoDup ws : distinct ws = true <-> NoDup ws.
Proof.
  induction ws as [|w ws IH]; simpl.
  - split; [constructor | done].
  - rewrite NoDup_cons, andb_true_iff, negb_true_iff, IH, <- mem_elem_of.
    destruct (Str.mem w ws); intuition congruence.
Qed.

Lemma well_formed_Dir entries :
  well_formed (Dir entries) = true <->
  NoDup (map fst entries) /\
  Forall (fun e => valid_name (fst e) = true /\ well_formed (snd e) = true) entries.
Proof.
  simpl. rewrite andb_true_iff, distinct_NoDup, forallb_forall, Forall_forall.
  split; intros [H1 H2]; (split; [done|]); intros e He.
  - apply list_elem_of_In, H2 in He. by apply andb_true_iff in He.
  - apply andb_true_iff, H2. by apply list_elem_of_In.
Qed.

Lemma link_free_Dir entries :
  link_free (Dir entries) = true <-> Forall (fun e => link_free (snd e) = true) entries.
Proof.
  simpl. rewrite forallb_forall, Forall_forall.
  split; intros H e He; apply H; by apply list_elem_of_In.
Qed.

Lemma entry_Some name entries n :
  entry name entries = Some n -> (name, n) ∈ entries.
Proof.
  induction entries as [|[m x] entries IH]; simpl; [done|].
  destruct (String.eqb_spec m name) as [->|Hne].
  - intros [= ->]. left.
  - intros H. right. by apply IH.
Qed.

Lemma entry_distinct name entries n :
  NoDup (map fst entries) -> (name, n) ∈ entries -> entry name entries = Some n.
Proof.
  induction entries as [|[m x] entries IH]; simpl; intros Hd Hin.
  - by apply elem_of_nil in Hin.
  - apply NoDup_cons in Hd as [Hm Hd]. apply elem_of_cons in Hin as [[= <- <-]|Hin].
    + by rewrite String.eqb_refl.
    + destruct (String.eqb_spec m name) as [->|Hne]; [|by apply IH].
      destruct Hm. apply (list_elem_of_fmap_2 fst) in Hin. exact Hin.
Qed.

Lemma node_at_app n p q :
  node_at n (p ++ q) = match node_at n p with Some m => node_at m q | None => None end.
Proof.
  revert n. induction p as [|c p IH]; intros n; simpl; [done|].
  destruct n as [| |entries|]; try done. destruct (entry c entries); [apply IH | done].
Qed.


Lemma node_at_well_formed n p x :
  well_formed n = true -> node_at n p = Some x ->
  well_formed x = true /\ Forall (fun c => valid_name c = true) p.
Proof.
  revert n. induction p as [|c p IH]; intros n Hwf H; simpl in H.
  - injection H as <-. by split.
  - destruct n as [| |entries|]; try done.
    destruct (entry c entries) as [m|] eqn:E; [|done].
    apply well_formed_Dir in Hwf as [_ Hall]. apply entry_Some in E.
    rewrite Forall_forall in Hall. destruct (Hall _ E) as [Hc Hm]. simpl in Hc, Hm.
    destruct (IH m Hm H) as [Hx Hp]. split; [done | by constructor].
Qed.

Lemma node_at_link_free n p x :
  link_free n = true -> node_at n p = Some x -> link_free x = true.
Proof.
  revert n. induction p as [|c p IH]; intros n Hlf H; simpl in H.
  - by injection H as <-.
  - destruct n as [| |entries|]; try done.
    destruct (entry c entries) as [m|] eqn:E; [|done].
    apply link_free_Dir in Hlf. apply entry_Some in E.
    rewrite Forall_forall in Hlf. apply (IH m); [|done]. by apply (Hlf _ E).
Qed.

(** *** What [rglob] yields *)

Lemma elem_of_flat_map {A B : Type} (g : A -> list B) (l : list A) (y : B) :
  y ∈ flat_map g l <-> exists x, x ∈ l /\ y ∈ g x.
Proof.
  rewrite list_elem_of_In, in_flat_map. split; intros (x & Hx & Hy); exists x.
  - by rewrite !list_elem_of_In.
  - by rewrite <- !list_elem_of_In.
Qed.

Lemma elem_of_map {A B : Type} (f : A -> B) (l : list A) (y : B) :
  y ∈ map f l <-> exists x, y = f x /\ x ∈ l.
Proof. apply (list_elem_of_fmap f l y). Qed.

Lemma rglob_from_spec n :
  forall pre rel,
    well_formed n = true ->
    (rel ∈ rglob_from pre n <->
     exists r, r <> [] /\ rel = pre ++ r /\ is_Some (node_at n r)).
Proof.
  induction n as [| |target|entries IH] using node_ind; intros pre rel Hwf.
  1-3: split; [intros H; by apply elem_of_nil in H|];
       intros ([|c r] & Hr & _ & [x Hx]); done.
  apply well_formed_Dir in Hwf as [Hd Hall].
  rewrite Forall_forall in IH, Hall.
  cbn [rglob_from]. rewrite elem_of_app, elem_of_map, elem_of_flat_map. split.
  - intros [([c x] & -> & He) | ([c x] & He & Hrel)]; simpl in *.
    + exists [c]. split; [done|]. split; [done|]. simpl.
      rewrite (entry_distinct _ _ _ Hd He). by exists x.
    + destruct (Hall _ He) as [_ Hx]. simpl in Hx.
      apply (IH _ He (pre ++ [c]) rel Hx) in Hrel as (r & Hr & -> & Hs).
      exists (c :: r). split; [done|]. split; [by rewrite <- app_assoc|].
      simpl. by rewrite (entry_distinct _ _ _ Hd He).
  - intros ([|c r] & Hr & -> & [y Hy]); [done|]. simpl in Hy.
    destruct (entry c entries) as [x|] eqn:E; [|done]. apply entry_Some in E.
    destruct r as [|c' r].
    + left. by exists (c, x).
    + right. exists (c, x). split; [done|]. simpl.
      destruct (Hall _ E) as [_ Hx]. simpl in Hx.
      apply (IH _ E (pre ++ [c]) _ Hx). exists (c' :: r).
      split; [done|]. split; [by rewrite <- app_assoc | by exists y].
Qed.

Lemma NoDup_map_inj {A B : Type} (f : A -> B) (l : list A) :
  (forall x y, x ∈ l -> y ∈ l -> f x = f y -> x = y) ->
  NoDup l -> NoDup (map f l).
Proof.
  induction l as [|a l IH]; intros Hinj Hd; simpl; [constructor|].
  apply NoDup_cons in Hd as [Ha Hd]. apply NoDup_cons. split.
  - intros (x & Hfx & Hx)%elem_of_map.
    apply Hinj in Hfx; [by subst | left | by right].
  - apply IH; [|done]. intros x y Hx Hy. apply Hinj; by right.
Qed.

Lemma NoDup_filter {A : Type} (P : A -> bool) (l : list A) :
  NoDup l -> NoDup (List.filter P l).
Proof.
  induction l as [|a l IH]; intros Hd; simpl; [constructor|].
  apply NoDup_cons in Hd as [Ha Hd]. destruct (P a); [|by apply IH].
  apply NoDup_cons. split; [|by apply IH].
  intros [H _]%list_elem_of_In%filter_In. by apply Ha, list_elem_of_In.
Qed.

Lemma NoDup_flat_map {A B K : Type} (g : A -> list B) (tag : A -> K)
      (key : B -> option K) (l : list A) :
  NoDup (map tag l) ->
  (forall x, x ∈ l -> NoDup (g x)) ->
  (forall x y, x ∈ l -> y ∈ g x -> key y = Some (tag x)) ->
  NoDup (flat_map g l).
Proof.
  induction l as [|a l IH]; intros Hd Hg Hkey; simpl; [constructor|].
  apply NoDup_cons in Hd as [Ha Hd]. apply NoDup_app. split; [|split].
  - apply Hg. left.
  - intros y Hy (x & Hx & Hyx)%elem_of_flat_map.
    apply Ha. apply elem_of_map. exists x. split; [|done].
    assert (key y = Some (tag a)) as H1 by (apply Hkey; [left | done]).
    assert (key y = Some (tag x)) as H2 by (apply Hkey; [by right | done]).
    congruence.
  - apply IH; [done | |].
    + intros x Hx. apply Hg. by right.
    + intros x y Hx. apply Hkey. by right.
Qed.

Lemma rglob_from_NoDup n :
  forall pre, well_formed n = true -> NoDup (rglob_from pre n).
Proof.
  induction n as [| |target|entries IH] using node_ind; intros pre Hwf;
    try constructor.
  pose proof Hwf as Hwf'. apply well_formed_Dir in Hwf' as [Hd Hall].
  rewrite Forall_forall in IH, Hall.
  assert (forall e y, e ∈ entries -> y ∈ rglob_from (pre ++ [fst e]) (snd e) ->
                      exists r, r <> [] /\ y = pre ++ fst e :: r) as Hshape.
  { intros e y He Hy. destruct (Hall _ He) as [_ Hx].
    apply (rglob_from_spec _ _ _ Hx) in Hy as (r & Hr & -> & _).
    exists r. split; [done|]. by rewrite <- app_assoc. }
  cbn [rglob_from]. apply NoDup_app. split; [|split].
  - apply NoDup_map_inj.
    + intros [c x] [c' x'] Hx Hx' Heq. simpl in Heq.
      apply app_inv_head in Heq. injection Heq as ->.
      apply (entry_distinct _ _ _ Hd) in Hx, Hx'. congruence.
    + eapply NoDup_fmap_1. exact Hd.
  - intros y ([c x] & -> & _)%elem_of_map (e & He & Hy)%elem_of_flat_map.
    simpl in Hy.
    destruct (Hshape _ _ He Hy) as (r & Hr & Heq).
    apply app_inv_head in Heq. destruct r; [done | discriminate].
  - apply (NoDup_flat_map _ fst (fun y => y !! length pre)); [done| |].
    + intros e He. apply IH; [done|]. by destruct (Hall _ He).
    + intros e y He Hy. destruct (Hshape _ _ He Hy) as (r & _ & ->).
      by rewrite lookup_app_r, Nat.sub_diag.
Qed.

(** *** Path resolution *)

Lemma walk_nil fs strict f cur : walk fs strict (S f) cur [] = Some cur.
Proof. reflexivity. Qed.

Lemma walk_cons fs strict f cur c rest :
  walk fs strict (S f) cur (c :: rest) =
  if String.eqb c "" || String.eqb c "." then walk fs strict (S f) cur rest
  else if String.eqb c ".." then walk fs strict (S f) (removelast cur) rest
  else
    match lstat fs (cur ++ [c]) with
    | Some (Link target) =>
        walk fs strict f (if is_abs target then [] else cur) (names_of target ++ rest)
    | Some (Dir _) => walk fs strict (S f) (cur ++ [c]) rest
    | Some _ =>
        if strict && negb (bool_decide (rest = [])) then None
        else walk fs strict (S f) (cur ++ [c]) rest
    | None => if strict then None else walk fs strict (S f) (cur ++ [c]) rest
    end.
Proof. reflexivity. Qed.

Lemma valid_name_plain c :
  valid_name c = true ->
  String.eqb c "" || String.eqb c "." = false /\ String.eqb c ".." = false.
Proof.
  unfold valid_name. rewrite !andb_true_iff, !negb_true_iff.
  intros [[[-> ->] ->] _]. done.
Qed.

Lemma lstat_sane fs p x :
  sane fs -> lstat fs p = Some x ->
  well_formed x = true /\ Forall (fun c => valid_name c = true) p.
Proof. intros Hwf H. by apply (node_at_well_formed _ _ _ Hwf H). Qed.

Lemma lstat_app fs p q :
  lstat fs (p ++ q) = match lstat fs p with Some m => node_at m q | None => None end.
Proof. apply node_at_app. Qed.

(** Below a directory without links, the names of an existing entry
    resolve to themselves. *)
Lemma walk_plain fs strict f comps :
  sane fs ->
  forall cur n x,
    lstat fs cur = Some n -> link_free n = true ->
    node_at n comps = Some x ->
    walk fs strict (S f) cur comps = Some (cur ++ comps).
Proof.
  intros Hsane. induction comps as [|c rest IH]; intros cur n x Hn Hlf Hx.
  - by rewrite walk_nil, app_nil_r.
  - assert (lstat fs (cur ++ [c] ++ rest) = Some x) as Hl by (by rewrite lstat_app, Hn).
    destruct (lstat_sane _ _ _ Hsane Hl) as (_ & Hvalid).
    apply Forall_app in Hvalid as [_ Hvalid]. apply Forall_cons in Hvalid as [Hc _].
    apply valid_name_plain in Hc as [H1 H2].
    rewrite walk_cons, H1, H2.
    assert (exists y, lstat fs (cur ++ [c]) = Some y /\ node_at y rest = Some x
                      /\ link_free y = true) as (y & Hy & Hyx & Hylf).
    { rewrite lstat_app, Hn. change (c :: rest) with ([c] ++ rest) in Hx.
      rewrite node_at_app in Hx. destruct (node_at n [c]) as [y|] eqn:E; [|done].
      exists y. split; [done|]. split; [done|]. by apply (node_at_link_free n [c]). }
    rewrite Hy.
    destruct y as [| |entries|target]; [| | |done].
    3: { rewrite (IH (cur ++ [c]) _ x Hy Hylf Hyx). by rewrite <- app_assoc. }
    all: destruct rest as [|c' rest]; [|done];
      by rewrite andb_false_r, walk_nil.
Qed.

(** Once a prefix of the names has led to a directory, the rest is resolved
    from there. *)
Lemma walk_app fs strict f :
  forall a cur base entries,
    walk fs strict f cur a = Some base ->
    lstat fs base = Some (Dir entries) ->
    exists f', forall b, walk fs strict f cur (a ++ b) = walk fs strict (S f') base b.
Proof.
  induction f as [|f IHf]; [done|].
  induction a as [|c a IH]; intros cur base entries Hw Hd.
  - rewrite walk_nil in Hw. injection Hw as ->. by exists f.
  - rewrite walk_cons in Hw.
    destruct (String.eqb c "" || String.eqb c ".") eqn:E1.
    { destruct (IH _ _ _ Hw Hd) as [f' Hf']. exists f'. intros b.
      rewrite <- app_comm_cons. rewrite walk_cons, E1. apply Hf'. }
    destruct (String.eqb c "..") eqn:E2.
    { destruct (IH _ _ _ Hw Hd) as [f' Hf']. exists f'. intros b.
      rewrite <- app_comm_cons. rewrite walk_cons, E1, E2. apply Hf'. }
    destruct (lstat fs (cur ++ [c])) as [y|] eqn:E3.
    + destruct y as [| |sub|target].
      3: { destruct (IH _ _ _ Hw Hd) as [f' Hf']. exists f'. intros b.
           rewrite <- app_comm_cons. rewrite walk_cons, E1, E2, E3. apply Hf'. }
      3: { destruct (IHf _ _ _ _ Hw Hd) as [f' Hf']. exists f'. intros b.
           rewrite <- app_comm_cons. rewrite walk_cons, E1, E2, E3. by rewrite <- Hf', <- app_assoc. }
      all: destruct strict; cbn [andb] in Hw.
      2,4: destruct (IH _ _ _ Hw Hd) as [f' Hf']; exists f'; intros b;
        rewrite <- app_comm_cons; rewrite walk_cons, E1, E2, E3; cbn [andb]; apply Hf'.
      all: destruct a as [|c' a];
        [|by rewrite bool_decide_eq_false_2 in Hw by done].
      all: rewrite bool_decide_eq_true_2 in Hw by done; cbn [negb] in Hw.
      all: rewrite walk_nil in Hw; injection Hw as <-; congruence.
    + destruct strict; [done|].
      destruct (IH _ _ _ Hw Hd) as [f' Hf']. exists f'. intros b.
      rewrite <- app_comm_cons. rewrite walk_cons, E1, E2, E3. apply Hf'.
Qed.

(** What [stat] resolves, [resolve] resolves to the same names. *)
Lemma walk_lenient fs f :
  forall a cur base,
    walk fs true f cur a = Some base -> walk fs false f cur a = Some base.
Proof.
  induction f as [|f IHf]; [done|].
  induction a as [|c a IH]; intros cur base Hw; [done|].
  rewrite walk_cons in *.
  destruct (String.eqb c "" || String.eqb c "."); [by apply IH|].
  destruct (String.eqb c ".."); [by apply IH|].
  destruct (lstat fs (cur ++ [c])) as [y|] eqn:E; [|done].
  destruct y as [| |sub|target]; [| |by apply IH|by apply IHf].
  all: cbn [andb] in *; destruct (bool_decide (a = [])); [by apply IH | done].
Qed.

(** The entry [rel] below the scanned directory, as [pathlib] sees it. *)
Lemma below_base fs root base entries rel x :
  sane fs ->
  stat fs (Path root) = Some base ->
  lstat fs base = Some (Dir entries) ->
  link_free (Dir entries) = true ->
  node_at (Dir entries) rel = Some x ->
  kind fs (joinpath (Path root) rel) = Some x /\
  resolve fs (joinpath (Path root) rel) = Ok (canonical (base ++ rel)).
Proof.
  intros Hsane Hs Hd Hlf Hx. unfold stat in Hs.
  assert (lstat fs (base ++ rel) = Some x) as Hl by (by rewrite lstat_app, Hd).
  split.
  - unfold kind, stat. simpl.
    destruct (walk_app _ _ _ _ _ _ _ Hs Hd) as [f' ->].
    rewrite (walk_plain _ _ _ _ Hsane _ _ _ Hd Hlf Hx). done.
  - unfold resolve. simpl. apply walk_lenient in Hs.
    destruct (walk_app _ _ _ _ _ _ _ Hs Hd) as [f' ->].
    by rewrite (walk_plain _ _ _ _ Hsane _ _ _ Hd Hlf Hx).
Qed.

(** *** Path text *)

Lemma split_no_sep w : Str.has_char "/" w = false -> Str.split "/" w = [w].
Proof.
  induction w as [|c w IH]; intros H; [done|].
  rewrite has_char_cons in H. apply orb_false_iff in H as [Hc Hw].
  simpl. by rewrite Ascii.eqb_sym, Hc, (IH Hw).
Qed.

Lemma split_app w s :
  Str.has_char "/" w = false ->
  Str.split "/" (w +:+ "/" +:+ s) = w :: Str.split "/" s.
Proof.
  induction w as [|c w IH]; intros H; [done|].
  rewrite has_char_cons in H. apply orb_false_iff in H as [Hc Hw].
  rewrite append_cons. simpl. by rewrite Ascii.eqb_sym, Hc, (IH Hw).
Qed.

Lemma split_join ws :
  Forall (fun w => Str.has_char "/" w = false) ws -> ws <> [] ->
  Str.split "/" (Str.join "/" ws) = ws.
Proof.
  induction ws as [|w ws IH]; intros Hall Hne; [done|].
  apply Forall_cons in Hall as [Hw Hall]. destruct ws as [|w' ws].
  - by apply split_no_sep.
  - change (Str.join "/" (w :: w' :: ws)) with (w +:+ "/" +:+ Str.join "/" (w' :: ws)).
    rewrite split_app by done. by rewrite IH.
Qed.

(** The text of an anchored path of valid names reads back as the names. *)
Lemma names_of_str c :
  Forall (fun w => valid_name w = true) c -> names_of (str (canonical c)) = c.
Proof.
  intros Hall. unfold names_of, str. simpl.
  change ("" +:+ Str.join "/" c) with (Str.join "/" c).
  destruct c as [|w c]; [done|].
  rewrite split_join; [|by eapply Forall_impl;
    [exact Hall | intros x Hx; unfold valid_name in Hx;
                  apply andb_true_iff in Hx as [_ Hx]; by apply negb_true_iff in Hx]|done].
  apply forallb_filter_id, forallb_forall. intros x Hx%list_elem_of_In.
  rewrite Forall_forall in Hall. specialize (Hall _ Hx). unfold valid_name in Hall.
  rewrite !andb_true_iff in Hall. apply andb_true_iff. tauto.
Qed.

Lemma str_canonical_inj a b :
  Forall (fun w => valid_name w = true) a ->
  Forall (fun w => valid_name w = true) b ->
  str (canonical a) = str (canonical b) -> a = b.
Proof.
  intros Ha Hb H. by rewrite <- (names_of_str a Ha), <- (names_of_str b Hb), H.
Qed.

Lemma last_app_nonempty (a rel : list string) (d : string) :
  rel <> [] -> List.last (a ++ rel) d = List.last rel d.
Proof.
  intros Hne. induction a as [|x a IH]; [done|].
  simpl. destruct (a ++ rel) eqn:E; [|done].
  apply app_eq_nil in E as [_ ?]. done.
Qed.

Lemma suffix_below P base rel :
  rel <> [] -> suffix (joinpath P rel) = suffix (canonical (base ++ rel)).
Proof.
  intros Hne. unfold suffix, name. simpl. by rewrite !last_app_nonempty.
Qed.

(** *** The loop and the sort *)

Lemma fold_scan_step fs exts_lower P (keep : list string -> bool)
      (out : list string -> PurePath) (rels : list (list string)) :
  (forall rel, rel ∈ rels ->
     is_file fs (joinpath P rel) && Str.mem (Str.lower (suffix (joinpath P rel))) exts_lower
       = keep rel /\
     resolve fs (joinpath P rel) = Ok (out rel)) ->
  forall acc,
    fold_left (scan_step fs exts_lower) (map (joinpath P) rels) (Ok acc)
    = Ok (acc ++ map (fun rel => str (out rel)) (List.filter keep rels)).
Proof.
  induction rels as [|rel rels IH]; intros H acc; simpl.
  - by rewrite app_nil_r.
  - destruct (H rel) as [Hk Hr]; [left|].
    assert (forall rel, rel ∈ rels ->
              is_file fs (joinpath P rel)
              && Str.mem (Str.lower (suffix (joinpath P rel))) exts_lower = keep rel /\
              resolve fs (joinpath P rel) = Ok (out rel)) as H'.
    { intros r Hr'. apply H. by right. }
    rewrite Hk. destruct (keep rel).
    + rewrite Hr. simpl. rewrite (IH H'). by rewrite <- app_assoc.
    + by rewrite (IH H').
Qed.


Lemma sort_NoDup l : NoDup l -> NoDup (Str.sort l).
Proof. unfold Str.sort. by rewrite merge_sort_Permutation. Qed.


(** The scan of a directory that has no link below it. *)
Lemma scan_images_below fs root exts base entries :
  sane fs ->
  stat fs (Path root) = Some base ->
  lstat fs base = Some (Dir entries) ->
  link_free (Dir entries) = true ->
  scan_images fs root exts
  = Ok (Str.sort (map (fun rel => str (canonical (base ++ rel)))
                      (List.filter (kept fs base exts) (rglob_from [] (Dir entries))))).
Proof.
  intros Hsane Hs Hd Hlf. unfold scan_images.
  assert (kind fs (Path root) = Some (Dir entries)) as Hk.
  { unfold kind. rewrite Hs. exact Hd. }
  unfold is_dir, rglob. rewrite Hk. cbn [negb].
  destruct (lstat_sane _ _ _ Hsane Hd) as [Hwf _].
  rewrite (fold_scan_step fs _ (Path root) (kept fs base exts)
             (fun rel => canonical (base ++ rel))); [done|].
  intros rel Hrel.
  apply (rglob_from_spec _ _ _ Hwf) in Hrel as (r & Hr & -> & [x Hx]). simpl.
  destruct (below_base _ _ _ _ _ _ Hsane Hs Hd Hlf Hx) as [Hkind Hres].
  split; [|done]. unfold is_file, kept. rewrite Hkind.
  rewrite (suffix_below _ base) by done.
  by rewrite lstat_app, Hd, Hx.
Qed.

(** ** The scanner *)



(** The paths of the kept entries are distinct. *)
Lemma kept_paths_NoDup fs base entries exts :
  sane fs ->
  lstat fs base = Some (Dir entries) ->
  NoDup (map (fun rel => str (canonical (base ++ rel)))
             (List.filter (kept fs base exts) (rglob_from [] (Dir entries)))).
Proof.
  intros Hsane Hd. destruct (lstat_sane _ _ _ Hsane Hd) as [Hwf _].
  assert (forall r, In r (rglob_from [] (Dir entries)) ->
                    Forall (fun w => valid_name w = true) (base ++ r)) as Hvalid.
  { intros r (r' & _ & -> & [x Hx])%list_elem_of_In%(rglob_from_spec _ _ _ Hwf).
    eapply (lstat_sane fs _ x); [done|]. by rewrite lstat_app, Hd. }
  apply NoDup_map_inj.
  - intros r1 r2 [H1 _]%list_elem_of_In%filter_In [H2 _]%list_elem_of_In%filter_In Heq.
    apply (app_inv_head base), str_canonical_inj; [by apply Hvalid..|done].
  - by apply NoDup_filter, rglob_from_NoDup.
Qed.




(** The scan tests of the repository. *)
Example test_scan_images_basic :
  scan_images pics "/pics" IMAGE_EXTENSIONS
  = Ok ["/pics/a.png"; "/pics/b.JPG"; "/pics/sub/d.webp"].
Proof. by vm_compute. Qed.

Example test_scan_images_empty_dir :
  scan_images pics "/empty" IMAGE_EXTENSIONS = Ok [].
Proof. by vm_compute. Qed.

Example test_scan_images_custom_exts :
  scan_images pics "/etc" [".gif"] = Ok ["/etc/x.gif"].
Proof. by vm_compute. Qed.





(** ** Uniqueness in the store *)

Lemma remove_path_NoDup m p : NoDup (_paths m) -> NoDup (_paths (remove_path m p)).
Proof.
  intros Hd. unfold remove_path.
  destruct (list_index p (_paths m)) as [r|] eqn:E; [|done].
  destruct (list_index_Some _ _ _ E) as (b & a & Hl & _ & -> & Hdel).
  simpl. rewrite Hdel. rewrite Hl in Hd. apply NoDup_app in Hd as (Hb & Hba & Ha).
  apply NoDup_cons in Ha as [_ Ha]. apply NoDup_app. split; [done|]. split; [|done].
  intros x Hx Hxa. apply (Hba x Hx). by right.
Qed.

(** C9, amended. [remove] keeps the paths of the store distinct;
    [replace] leaves the store with distinct paths when the list it is given
    has distinct paths; and so does the delivery of a scan result when no
    symbolic link lies below the scanned directory. *)
Theorem store_paths_stay_distinct (m : ImageListModel) :
  (forall p, NoDup (_paths m) -> NoDup (_paths (remove_path m p))) /\
  (forall paths, NoDup paths -> NoDup (_paths (replace m paths))) /\
  (forall (vm : ViewModel) fs root exts base entries out,
      sane fs ->
      stat fs (Path root) = Some base ->
      lstat fs base = Some (Dir entries) ->
      link_free (Dir entries) = true ->
      scan_images fs root exts = Ok out ->
      NoDup (_paths (model (call (to_replace out) vm)))).
Proof.
  split; [intros p; apply remove_path_NoDup|]. split; [done|].
  intros vm fs root exts base entries out Hsane Hs Hd Hlf Hout. simpl.
  rewrite (scan_images_below _ _ _ base entries) in Hout by done.
  injection Hout as <-. by apply sort_NoDup, kept_paths_NoDup.
Qed.

Lemma store_paths_stay_distinct_witness :
  NoDup (_paths (remove_path (ImageListModel_init ["/pics/a.png"; "/pics/b.JPG"] 64)
                             "/pics/a.png")) /\
  NoDup (_paths (model (call (to_replace ["/pics/a.png"; "/pics/b.JPG"; "/pics/sub/d.webp"])
                             ViewModel_init))).
Proof.
  destruct (store_paths_stay_distinct
              (ImageListModel_init ["/pics/a.png"; "/pics/b.JPG"] 64)) as (H1 & _ & H3).
  split.
  - apply H1. vm_compute. apply NoDup_ListNoDup.
    repeat constructor; simpl; intuition discriminate.
  - apply (H3 ViewModel_init pics "/pics" IMAGE_EXTENSIONS ["pics"]
              [("a.png", File); ("b.JPG", File); ("c.txt", File);
               ("sub", Dir [("d.webp", File)])]); vm_compute; reflexivity.
Defined.

(** C9 as stated fails: [replace] stores the list it is given as it is, and
    the scan of a directory with a link to one of its images delivers the same
    path twice. *)
Lemma store_holds_duplicates :
  NoDup (_paths (ImageListModel_init [] 64)) /\
  ~ NoDup (_paths (replace (ImageListModel_init [] 64) ["a.png"; "a.png"])) /\
  ~ NoDup (_paths (model (exec_all ViewModel_init
             [Scan pics_linked "/pics"; Run (scanner pics_linked) 0; Deliver]))).
Proof.
  split; [constructor|]. split.
  - simpl. intros [H _]%NoDup_cons. apply H. left.
  - assert (_paths (model (exec_all ViewModel_init
              [Scan pics_linked "/pics"; Run (scanner pics_linked) 0; Deliver]))
            = ["/pics/a.png"; "/pics/a.png"]) as -> by (by vm_compute).
    intros [H _]%NoDup_cons. apply H. left.
Qed.


(** * Further properties *)

(** ** The scanner on any snapshot *)

Lemma is_file_resolve fs p :
  is_file fs p = true ->
  exists c, stat fs p = Some c /\ lstat fs c = Some File /\
            resolve fs p = Ok (canonical c).
Proof.
  unfold is_file, kind, resolve, stat. intros H.
  destruct (walk fs true (S MAXSYMLINKS) _ (parts p)) as [c|] eqn:E; [|done].
  simpl in H. exists c. split; [done|]. split.
  - by destruct (lstat fs c) as [[| | |]|].
  - by rewrite (walk_lenient _ _ _ _ _ E).
Qed.

Lemma fold_scan_step_paths fs exts (ps : list PurePath) :
  forall acc,
    fold_left (scan_step fs (map Str.lower exts)) ps (Ok acc)
    = Ok (acc ++ map (fun p => str (canonical (target fs p)))
                     (List.filter (matches fs exts) ps)).
Proof.
  induction ps as [|p ps IH]; intros acc; simpl; [by rewrite app_nil_r|].
  unfold matches at 1. destruct (is_file fs p) eqn:Hf; simpl.
  - destruct (is_file_resolve _ _ Hf) as (c & Hs & _ & Hr).
    destruct (Str.mem _ _); simpl; [|apply IH].
    rewrite Hr. simpl. rewrite IH, <- app_assoc. unfold target at 2. by rewrite Hs.
  - apply IH.
Qed.

(** The scan as one expression: the sorted resolved paths of the matching
    entries. *)
Lemma scan_images_general fs root exts :
  scan_images fs root exts
  = Ok (Str.sort (map (fun p => str (canonical (target fs p)))
                      (List.filter (matches fs exts) (rglob fs (Path root))))).
Proof.
  unfold scan_images. destruct (is_dir fs (Path root)) eqn:Hd; simpl.
  - by rewrite fold_scan_step_paths.
  - unfold is_dir in Hd. unfold rglob.
    by destruct (kind fs (Path root)) as [[| | |]|].
Qed.








Lemma filter_same {A : Type} (f g : A -> bool) (l : list A) :
  (forall x, f x = g x) -> List.filter f l = List.filter g l.
Proof.
  intros H. induction l as [|x l IH]; simpl; [done|]. by rewrite H, IH.
Qed.

(** X4. The case of the extensions does not matter, nor do repeated
    extensions: two extension lists with the same lower-cased members give
    the same scan. *)
Theorem scan_images_extension_case
  (fs : filesystem) (root : string) (exts exts' : list string)
  (H : forall e, e ∈ map Str.lower exts <-> e ∈ map Str.lower exts') :
  scan_images fs root exts = scan_images fs root exts'.
Proof.
  rewrite !scan_images_general. do 3 f_equal. apply filter_same. intros p.
  unfold matches. f_equal.
  destruct (Str.mem _ (map Str.lower exts)) eqn:E1,
           (Str.mem _ (map Str.lower exts')) eqn:E2; try done.
  - apply mem_elem_of, H, mem_elem_of in E1. congruence.
  - apply mem_elem_of, H, mem_elem_of in E2. congruence.
Qed.

Lemma scan_images_extension_case_witness :
  scan_images pics "/pics" [".PNG"; ".jpg"; ".Png"]
  = scan_images pics "/pics" [".JPG"; ".png"].
Proof.
  apply scan_images_extension_case. intros e. vm_compute map.
  rewrite !elem_of_cons, !elem_of_nil. tauto.
Defined.


Lemma filter_sublist_mono {A : Type} (f g : A -> bool) (l : list A) :
  (forall x, f x = true -> g x = true) ->
  sublist (List.filter f l) (List.filter g l).
Proof.
  intros H. induction l as [|x l IH]; simpl; [constructor|].
  destruct (f x) eqn:Hf.
  - rewrite (H x Hf). by constructor.
  - destruct (g x); [by constructor | done].
Qed.




(** ** The model: fresh indexes and the icon cache *)

Lemma getitem_elem_of (l : list string) (i : Z) (x : string) :
  getitem l i = Ok x -> x ∈ l.
Proof.
  unfold getitem. destruct (_ <? 0)%Z; [done|].
  destruct (l !! _) as [y|] eqn:E; [|done].
  intros [= <-]. by apply list_elem_of_lookup_2 in E.
Qed.

Lemma isValid_fresh r :
  isValid {| row := Z.of_nat r; column := 0; has_model := true |} = true.
Proof. unfold isValid. simpl. rewrite !andb_true_r. apply Z.leb_le. lia. Qed.


(** X7. Whatever calls of [data], [replace] and [remove_path] a model has
    seen since it was made, its icon cache holds icons only for paths that
    are in the store, each the icon made for its path: no icon outlives its
    entry. *)
Theorem icon_cache_is_fresh
  (paths : list string) (thumb_size : Z) (calls : list model_call) :
  thumbs_fresh (fold_left model_exec calls (ImageListModel_init paths thumb_size)).
Proof.
  assert (thumbs_fresh (ImageListModel_init paths thumb_size)) as Hinit.
  { intros k icon H. simpl in H. by rewrite lookup_empty in H. }
  revert Hinit. generalize (ImageListModel_init paths thumb_size).
  induction calls as [|c calls IH]; intros m Hm; [done|].
  simpl. apply IH. destruct c as [i role|ps|p]; simpl.
  - unfold data. destruct (negb (isValid i)); [done|].
    destruct (getitem (_paths m) (row i)) as [x|msg] eqn:E; [|done]. simpl.
    destruct (role =? displayRole)%Z; [done|].
    destruct (role =? FILEPATH_ROLE)%Z; [done|].
    destruct (role =? decorationRole)%Z; [|done].
    destruct (_thumbs m !! x) eqn:Ex; [done|].
    intros k icon. unfold _make_icon. simpl.
    destruct (decide (x = k)) as [->|Hne].
    + rewrite lookup_insert_eq. intros [= <-]. split; [|done].
      by apply getitem_elem_of in E.
    + rewrite lookup_insert_ne by done. apply Hm.
  - intros k icon H. simpl in H. by rewrite lookup_empty in H.
  - unfold remove_path. destruct (list_index p (_paths m)) as [r|] eqn:E; [|done].
    destruct (list_index_Some _ _ _ E) as (b & a & Hl & _ & -> & Hd).
    intros k icon. unfold _make_icon. simpl. rewrite Hd.
    intros [Hne Hk]%lookup_delete_Some. destruct (Hm _ _ Hk) as [Hin Hicon].
    split; [|done]. rewrite Hl in Hin.
    apply elem_of_app in Hin as [Hin|[Heq|Hin]%elem_of_cons]; [| |].
    + apply elem_of_app. by left.
    + by subst.
    + apply elem_of_app. by right.
Qed.

(** X8. The decoration of a row is made once: asking [data] for it a second
    time returns the same icon and changes nothing more, and the first call
    leaves paths and signals untouched. *)
Theorem decoration_is_cached
  (m m' : ImageListModel) (index : QModelIndex) (v : option variant)
  (H : data m index decorationRole = Ok (v, m')) :
  data m' index decorationRole = Ok (v, m') /\
  _paths m' = _paths m /\ emitted m' = emitted m /\ _thumb_size m' = _thumb_size m.
Proof.
  unfold data in *. destruct (negb (isValid index)).
  { injection H as <- <-. done. }
  destruct (getitem (_paths m) (row index)) as [x|msg] eqn:E; [|done].
  simpl in H. destruct (_thumbs m !! x) as [icon|] eqn:Ex.
  - injection H as <- <-. rewrite E. simpl. by rewrite Ex.
  - injection H as <- <-. simpl. rewrite E. simpl.
    by rewrite lookup_insert_eq.
Qed.

Lemma decoration_is_cached_witness :
  let m := ImageListModel_init ["/pics/a.png"] 64 in
  let m' := {| _paths := ["/pics/a.png"];
               _thumbs := {["/pics/a.png" := icon_for "/pics/a.png" 64]};
               _thumb_size := 64; emitted := [] |} in
  data m' (index m 0) decorationRole
  = Ok (Some (VIcon (icon_for "/pics/a.png" 64)), m').
Proof.
  intros m m'.
  apply (decoration_is_cached m m' (index m 0)
           (Some (VIcon (icon_for "/pics/a.png" 64)))).
  vm_compute. reflexivity.
Defined.

(** X9. [remove_path] takes one row off the count when the path is in the
    store and none otherwise; in a store of distinct paths the path is gone
    afterwards, so removing it again changes nothing and emits nothing. *)
Theorem remove_path_rowCount (m : ImageListModel) (p : string) :
  rowCount (remove_path m p) + (if bool_decide (p ∈ _paths m) then 1 else 0)
  = rowCount m /\
  (NoDup (_paths m) ->
   (p ∉ _paths (remove_path m p)) /\
   remove_path (remove_path m p) p = remove_path m p).
Proof.
  unfold rowCount, remove_path at 1 2 3.
  destruct (list_index p (_paths m)) as [r|] eqn:E.
  - destruct (list_index_Some _ _ _ E) as (b & a & Hl & Hb & -> & Hd).
    simpl. rewrite Hd. assert (p ∈ _paths m) as Hin.
    { rewrite Hl. apply elem_of_app. right. left. }
    rewrite (bool_decide_eq_true_2 _ Hin), Hl, !length_app. simpl.
    split; [lia|]. intros Hnd.
    apply NoDup_app in Hnd as (_ & Hba & [Ha _]%NoDup_cons).
    assert (p ∉ b ++ a) as Hout.
    { intros [?|?]%elem_of_app; [by apply Hb | by apply Ha]. }
    split; [done|].
    assert (_paths (remove_path m p) = b ++ a) as Hp
      by (unfold remove_path; rewrite E; simpl; by rewrite Hd).
    rewrite Hp. apply list_index_None in Hout. by rewrite Hout.
  - apply list_index_None in E as Hout.
    rewrite (bool_decide_eq_false_2 _ Hout). split; [lia|].
    intros _. split; [done|].
    assert (remove_path m p = m) as -> by (unfold remove_path; by rewrite E).
    by rewrite E.
Qed.

(** ** The filter *)

Lemma lower_char_idem c : Str.lower_char (Str.lower_char c) = Str.lower_char c.
Proof. destruct c as [[] [] [] [] [] [] [] []]; reflexivity. Qed.

Lemma lower_idem s : Str.lower (Str.lower s) = Str.lower s.
Proof.
  induction s as [|c s IH]; simpl; [done|]. by rewrite lower_char_idem, IH.
Qed.

Lemma contains_trans a b c :
  Str.contains a b = true -> Str.contains b c = true -> Str.contains a c = true.
Proof.
  rewrite !contains_spec. intros (p1 & q1 & ->) (p2 & q2 & ->).
  exists (p2 +:+ p1), (q1 +:+ q2). by rewrite !append_assoc.
Qed.

(** X10. A longer filter text narrows the view: when the text [t1] occurs
    in the text [t2], case ignored, the view under [t2] is a sub-sequence of
    the view under [t1]. Typing on never brings a row back. *)
Theorem filter_narrows
  (vm : ViewModel) (t1 t2 : string)
  (H : Str.contains (Str.lower t1) (Str.lower t2) = true) :
  sublist (filtered_view (set_filter t2 vm)) (filtered_view (set_filter t1 vm)).
Proof.
  unfold filtered_view. simpl. rewrite !filtered_view_filter.
  apply filter_sublist_mono. intros p. by apply contains_trans.
Qed.

Lemma filter_narrows_witness :
  let vm := with_model ViewModel_init
              (replace (model ViewModel_init) ["/p/Cat.png"; "/p/car.jpg"; "/p/dog.png"]) in
  sublist (filtered_view (set_filter "CAT" vm)) (filtered_view (set_filter "ca" vm)).
Proof. intros vm. apply filter_narrows. vm_compute. reflexivity. Defined.

(** X11. The case of the filter text does not matter: a text and its
    lower-cased form show the same rows. *)
Theorem filter_text_case (vm : ViewModel) (text : string) :
  filtered_view (set_filter (Str.lower text) vm) = filtered_view (set_filter text vm).
Proof.
  unfold filtered_view. simpl. rewrite !filtered_view_filter.
  apply filter_same. intros p. by rewrite lower_idem.
Qed.

(** X12. The two numbers of the count label: the rows shown are as many as
    the entries of the filtered view and never more than the rows of the
    model, and they are all the rows when the filter is empty. *)
Theorem counts_bounds (vm : ViewModel) :
  fst (_counts vm) = length (filtered_view vm) /\
  snd (_counts vm) = length (_paths (model vm)) /\
  fst (_counts vm) <= snd (_counts vm) /\
  (filter_text vm = "" -> fst (_counts vm) = snd (_counts vm)).
Proof.
  unfold _counts, filtered_view, rowCount. simpl.
  split; [by rewrite length_map|]. split; [done|].
  assert (length (shown_rows (filter_text vm) (model vm))
          = length (map (filepath (model vm)) (shown_rows (filter_text vm) (model vm))))
    as -> by (by rewrite length_map).
  rewrite filtered_view_filter. split; [apply filter_length_le|].
  intros ->. f_equal. apply filter_all. intros x. apply contains_empty.
Qed.


(** ** The controller: what every reachable state keeps *)

Lemma pool_set_busy value vm : pool (_set_busy value vm) = pool vm.
Proof. unfold _set_busy. by destruct (negb _). Qed.

Lemma posted_set_busy value vm : posted (_set_busy value vm) = posted vm.
Proof. unfold _set_busy. by destruct (negb _). Qed.

Lemma scan_directory fs p vm :
  os_path_isdir fs p = true ->
  scan fs p vm = start_worker p (_set_busy true (cancel_current vm)).
Proof.
  intros Hdir. unfold scan. rewrite Hdir.
  unfold os_path_isdir in Hdir. apply andb_true_iff in Hdir as [Hne _].
  apply negb_true_iff in Hne. by rewrite Hne.
Qed.

Lemma scan_other fs p vm :
  os_path_isdir fs p = false ->
  scan fs p vm = with_model vm (replace (model vm) []).
Proof. intros Hdir. unfold scan. by rewrite Hdir, orb_true_r. Qed.

Lemma reachable_ind (P : ViewModel -> Prop) :
  P ViewModel_init ->
  (forall vm e, reachable vm -> P vm -> P (exec vm e)) ->
  forall vm, reachable vm -> P vm.
Proof.
  intros Hinit Hstep vm [evs ->].
  induction evs as [|e evs IH] using rev_ind; [done|].
  unfold exec_all. rewrite fold_left_app. simpl.
  apply Hstep; [by exists evs | exact IH].
Qed.

Lemma last_cons_default (x a b : bool) (log : list bool) :
  List.last (x :: log) a = List.last (x :: log) b.
Proof.
  revert x. induction log as [|y log IH]; intros x; [done|].
  change (List.last (y :: log) a = List.last (y :: log) b). apply IH.
Qed.

Lemma alternating_snoc b log v :
  alternating b log -> v = negb (List.last log b) -> alternating b (log ++ [v]).
Proof.
  revert b. induction log as [|x log IH]; intros b Ha Hv.
  - by split.
  - destruct Ha as [Hx Ha]. split; [done|]. apply IH; [done|].
    destruct log as [|y log]; [done|].
    rewrite Hv. f_equal. change (List.last (x :: y :: log) b) with (List.last (y :: log) b).
    apply last_cons_default.
Qed.

(** Each event leaves the busy flag and its signal alone, or changes the
    flag and emits the new value. *)
Lemma busy_step vm e :
  (busyChanged (exec vm e) = busyChanged vm /\ _busy (exec vm e) = _busy vm) \/
  (busyChanged (exec vm e) = busyChanged vm ++ [negb (_busy vm)] /\
   _busy (exec vm e) = negb (_busy vm)).
Proof.
  assert (forall v x,
    (busyChanged (_set_busy v x) = busyChanged x /\ _busy (_set_busy v x) = _busy x) \/
    (busyChanged (_set_busy v x) = busyChanged x ++ [negb (_busy x)] /\
     _busy (_set_busy v x) = negb (_busy x))) as Hset.
  { intros v x. unfold _set_busy. destruct (_busy x) eqn:Eb, v; simpl; rewrite ?Eb; auto. }
  destruct e as [fs p|text|paths|p|scan_fn w|]; simpl; auto.
  - unfold scan. destruct (_ || _); [auto|]. unfold start_worker. simpl.
    destruct (Hset true (cancel_current vm)) as [[-> ->]|[-> ->]];
      unfold cancel_current; destruct (_current_worker vm); auto.
  - unfold run. destruct (heap vm !! w); [|auto]. destruct (bool_decide _); auto.
  - unfold deliver. destruct (posted vm) as [|[s c] rest]; [auto|].
    destruct c as [matches|msg|u]; simpl; auto.
    unfold on_finished.
    match goal with |- context [_set_busy false ?x] =>
      destruct (Hset false x) as [[-> ->]|[-> ->]] end;
      destruct (bool_decide _); auto.
Qed.

(** X13. [busyChanged] is emitted when the busy flag changes and only then:
    in every reachable state the values emitted so far alternate, beginning
    with [True], and the last one is the present value of the flag. *)
Theorem busyChanged_alternates (vm : ViewModel) (H : reachable vm) :
  alternating false (busyChanged vm) /\
  _busy vm = List.last (busyChanged vm) false.
Proof.
  induction H as [|vm e _ [Ha Hb]] using reachable_ind; [done|].
  destruct (busy_step vm e) as [[-> ->]|[-> ->]]; [done|].
  split.
  - apply alternating_snoc; [done | by rewrite Hb].
  - by rewrite last_last.
Qed.

Lemma busyChanged_alternates_witness :
  let vm := exec_all ViewModel_init
              [Scan pics "/pics"; Scan pics "/etc"; Run (scanner pics) 0; Deliver;
               Scan pics "/pics"] in
  alternating false (busyChanged vm) /\ _busy vm = List.last (busyChanged vm) false.
Proof. intros vm. apply busyChanged_alternates. by eexists. Defined.

(** X14. The busy flag is never set without a current worker: in every
    reachable state in which [busy] holds, some worker is current. *)
Theorem busy_has_current_worker (vm : ViewModel) (H : reachable vm) :
  _busy vm = true -> exists w, _current_worker vm = Some w.
Proof.
  induction H as [|vm e _ IH] using reachable_ind; [done|].
  assert (forall x, _busy (_set_busy false x) = false) as Hoff.
  { intros x. unfold _set_busy. by destruct (_busy x) eqn:E. }
  destruct e as [fs p|text|paths|p|scan_fn w|]; simpl; try done.
  - unfold scan. destruct (_ || _); [done|]. unfold start_worker. simpl. by eexists.
  - unfold run. destruct (heap vm !! w); [|done]. by destruct (bool_decide _).
  - unfold deliver. destruct (posted vm) as [|[s c] rest]; [done|].
    destruct c as [matches|msg|u]; simpl; try done.
    unfold on_finished. by rewrite Hoff.
Qed.

Lemma busy_has_current_worker_witness :
  exists w, _current_worker (exec_all ViewModel_init [Scan pics "/pics"; Scan pics ""])
            = Some w.
Proof.
  apply busy_has_current_worker; [by eexists | vm_compute; reflexivity].
Defined.

Lemma cancel_current_length vm :
  length (heap (cancel_current vm)) = length (heap vm).
Proof.
  unfold cancel_current. destruct (_current_worker vm); [|done]. apply length_alter.
Qed.

Lemma cancel_current_pool vm : pool (cancel_current vm) = pool vm.
Proof. unfold cancel_current. by destruct (_current_worker vm). Qed.

Lemma cancel_current_posted vm : posted (cancel_current vm) = posted vm.
Proof. unfold cancel_current. by destruct (_current_worker vm). Qed.

Lemma cancel_current_cancels vm w :
  w < length (heap vm) ->
  cancelled vm w \/ _current_worker vm = Some w ->
  cancelled (cancel_current vm) w.
Proof.
  intros Hw [Hc|Hcur]; [by apply cancelled_cancel_current|].
  apply lookup_lt_is_Some in Hw as [worker Hw].
  unfold cancel_current. rewrite Hcur. exists (cancel worker). simpl.
  by rewrite list_lookup_alter_eq, Hw.
Qed.

Lemma cancelled_start_worker p v vm w :
  cancelled vm w -> cancelled (start_worker p (_set_busy v vm)) w.
Proof.
  intros (worker & Hw & Hc). exists worker. split; [|done].
  unfold start_worker. simpl. rewrite heap_set_busy. by apply lookup_app_l_Some.
Qed.

Lemma pool_run scan_fn w vm x :
  x ∈ pool (run scan_fn w vm) -> x ∈ pool vm.
Proof.
  unfold run. destruct (heap vm !! w); [|done]. destruct (bool_decide _); [|done].
  simpl. intros [H _]%list_elem_of_In%filter_In. by apply list_elem_of_In.
Qed.

Lemma pool_inv_init : pool_inv ViewModel_init.
Proof.
  unfold pool_inv. simpl.
  split; [intros w H; by apply elem_of_nil in H|].
  split; [intros s c H; by apply elem_of_nil in H|].
  split; [intros w H; by apply elem_of_nil in H | done].
Qed.

Lemma pool_inv_with_model vm m : pool_inv vm -> pool_inv (with_model vm m).
Proof. done. Qed.

Lemma pool_inv_scan fs p vm : pool_inv vm -> pool_inv (scan fs p vm).
Proof.
  intros (H1 & H2 & H3 & H4).
  destruct (os_path_isdir fs p) eqn:Hdir;
    [rewrite (scan_directory _ _ _ Hdir) | by rewrite (scan_other _ _ _ Hdir)].
  pose proof (cancel_current_length vm) as Hlen.
  assert (heap (start_worker p (_set_busy true (cancel_current vm)))
          = heap (cancel_current vm) ++ [{| path := p; _cancel_event := false |}]) as Hheap.
  { unfold start_worker. simpl. by rewrite heap_set_busy. }
  assert (pool (start_worker p (_set_busy true (cancel_current vm)))
          = pool vm ++ [length (heap vm)]) as Hpool.
  { unfold start_worker. simpl.
    by rewrite pool_set_busy, heap_set_busy, cancel_current_pool, Hlen. }
  assert (posted (start_worker p (_set_busy true (cancel_current vm))) = posted vm)
    as Hposted.
  { unfold start_worker. simpl. by rewrite posted_set_busy, cancel_current_posted. }
  assert (_current_worker (start_worker p (_set_busy true (cancel_current vm)))
          = Some (length (heap vm))) as Hcur.
  { unfold start_worker. simpl. by rewrite heap_set_busy, Hlen. }
  unfold pool_inv, cancelled, live.
  rewrite Hheap, Hpool, Hposted, Hcur, length_app, Hlen. simpl.
  split; [|split; [|split]].
  - intros w [Hw| ->%list_elem_of_singleton]%elem_of_app; [|lia].
    specialize (H1 _ Hw). lia.
  - intros s c Hin. destruct (H2 _ _ Hin) as (Hs & Hp & Hu).
    split; [lia|]. split; [|done].
    intros [Hw| ->%list_elem_of_singleton]%elem_of_app; [done | lia].
  - intros w [Hw| ->%list_elem_of_singleton]%elem_of_app; [|by right].
    left. destruct (cancel_current_cancels vm w (H1 _ Hw) (H3 _ Hw))
      as (worker & Hl & Hf).
    exists worker. split; [by apply lookup_app_l_Some | done].
  - intros w [= <-]. exists {| path := p; _cancel_event := false |}.
    split; [|done]. rewrite lookup_app_r; rewrite Hlen; [|lia].
    by rewrite Nat.sub_diag.
Qed.

Lemma pool_inv_run scan_fn w vm : pool_inv vm -> pool_inv (run scan_fn w vm).
Proof.
  intros (H1 & H2 & H3 & H4). pose proof (pool_run scan_fn w vm) as Hsub.
  unfold pool_inv, cancelled, live. rewrite heap_run.
  assert (_current_worker (run scan_fn w vm) = _current_worker vm) as ->.
  { unfold run. destruct (heap vm !! w); [|done]. by destruct (bool_decide _). }
  split; [intros x Hx; by apply H1, Hsub|]. split; [|split; [|done]].
  - intros s c. unfold run at 1 2.
    destruct (heap vm !! w) as [worker|] eqn:Hw; [|by apply H2].
    destruct (bool_decide (w ∈ pool vm)) eqn:Hin; [|by apply H2].
    apply bool_decide_eq_true in Hin. simpl.
    intros [Hold|Hnew]%elem_of_app.
    + destruct (H2 _ _ Hold) as (Hs & Hp & Hu). split; [done|]. split; [|done].
      intros [Hx _]%list_elem_of_In%filter_In. by apply Hp, list_elem_of_In.
    + assert (s = w /\ forall u, c = to_on_finished u -> u = w) as [-> Hu].
      { unfold run_emits in Hnew.
        destruct (scan_fn (path worker)), (negb (_cancel_event worker)); simpl in Hnew;
          repeat (apply elem_of_cons in Hnew as [[= -> ->]|Hnew]; [split; congruence|]);
          by apply elem_of_nil in Hnew. }
      split; [by apply H1|]. split; [|done].
      intros [_ Hf]%list_elem_of_In%filter_In. by rewrite Nat.eqb_refl in Hf.
  - intros x Hx. by apply H3, Hsub.
Qed.

Lemma pool_inv_deliver vm : pool_inv vm -> pool_inv (deliver vm).
Proof.
  intros Hinv. pose proof Hinv as (H1 & H2 & H3 & H4). unfold deliver.
  destruct (posted vm) as [|[s c] rest] eqn:Hq; [exact Hinv|].
  assert (forall s' c', (s', c') ∈ rest ->
            s' < length (heap vm) /\ (s' ∉ pool vm) /\
            forall u, c' = to_on_finished u -> u = s') as H2'.
  { intros s' c' Hin. apply H2. by right. }
  destruct c as [matches|msg|u]; simpl; [done|done|].
  destruct (H2 s (to_on_finished u)) as (_ & Hs & Hu); [left|].
  assert (u = s) as -> by (by apply Hu).
  unfold on_finished, pool_inv, cancelled, live.
  rewrite heap_set_busy, pool_set_busy, posted_set_busy, current_set_busy.
  case_bool_decide as Hcur; simpl;
    (split; [exact H1|]; split; [exact H2'|]; split); [| done | exact H3 | exact H4].
  intros w Hw. destruct (H3 _ Hw) as [Hc|Hc]; [by left|].
  simpl in Hcur. assert (w = s) as -> by congruence. by destruct Hs.
Qed.

Lemma pool_inv_exec vm e : pool_inv vm -> pool_inv (exec vm e).
Proof.
  destruct e; simpl; auto using pool_inv_scan, pool_inv_run, pool_inv_deliver.
Qed.

Lemma reachable_pool_inv vm : reachable vm -> pool_inv vm.
Proof.
  induction 1 as [|vm e _ IH] using reachable_ind;
    [apply pool_inv_init | by apply pool_inv_exec].
Qed.

(** X15. Only one session is ever live: in every reachable state a worker
    that has yet to run and whose cancel flag is clear is the current worker,
    and the current worker is never a cancelled one. Every other worker
    waiting in the pool will emit its finished signal only. *)
Theorem one_live_worker (vm : ViewModel) (H : reachable vm) :
  (forall w, w ∈ pool vm -> live vm w -> _current_worker vm = Some w) /\
  (forall w, _current_worker vm = Some w -> live vm w) /\
  (forall w scan_fn, w ∈ pool vm -> _current_worker vm <> Some w ->
     posted (run scan_fn w vm) = posted vm ++ [(w, to_on_finished w)]).
Proof.
  destruct (reachable_pool_inv vm H) as (H1 & H2 & H3 & H4).
  assert (forall w, w ∈ pool vm -> live vm w -> _current_worker vm = Some w) as Hlive.
  { intros w Hw (worker & Hl & Hf). destruct (H3 _ Hw) as [(worker' & Hl' & Hf')|Hc];
      [congruence | done]. }
  split; [done|]. split; [done|].
  intros w scan_fn Hw Hcur. destruct (H3 _ Hw) as [(worker & Hl & Hf)|Hc]; [|done].
  unfold run. rewrite Hl, (bool_decide_eq_true_2 _ Hw). simpl.
  unfold run_emits. rewrite Hf. by destruct (scan_fn _).
Qed.

Lemma one_live_worker_witness :
  let vm := exec_all ViewModel_init [Scan pics "/pics"; Scan pics "/etc"] in
  posted (run (scanner pics) 0 vm) = posted vm ++ [(0, to_on_finished 0)].
Proof.
  intros vm. destruct (one_live_worker vm) as (_ & _ & H); [by eexists|].
  apply H; vm_compute; [left | discriminate].
Defined.

(** ** The controller: results in a calm run *)










Lemma worker_exec vm e w worker :
  heap vm !! w = Some worker ->
  exists worker',
    heap (exec vm e) !! w = Some worker' /\ path worker' = path worker /\
    (_cancel_event worker = true -> _cancel_event worker' = true).
Proof.
  intros Hw. destruct e as [fs p|text|paths|p|scan_fn w'|]; simpl.
  2-4: by exists worker.
  - unfold scan. destruct (_ || _); [by exists worker|].
    unfold start_worker. simpl. rewrite heap_set_busy. unfold cancel_current.
    destruct (_current_worker vm) as [cw|]; simpl.
    + destruct (decide (cw = w)) as [->|Hne].
      * exists (cancel worker). split; [|done].
        apply lookup_app_l_Some. by rewrite list_lookup_alter_eq, Hw.
      * exists worker. split; [|done].
        apply lookup_app_l_Some. by rewrite list_lookup_alter_ne.
    + exists worker. split; [by apply lookup_app_l_Some | done].
  - exists worker. by rewrite heap_run.
  - exists worker. by rewrite heap_deliver.
Qed.

(** X18. Worker objects stay: along any run of events a worker keeps its
    place and its path, and a cancel flag once set stays set. *)
Theorem workers_persist
  (vm : ViewModel) (evs : list event) (w : nat) (worker : ScanWorker)
  (H : heap vm !! w = Some worker) :
  exists worker',
    heap (exec_all vm evs) !! w = Some worker' /\ path worker' = path worker /\
    (_cancel_event worker = true -> _cancel_event worker' = true).
Proof.
  revert vm worker H. induction evs as [|e evs IH]; intros vm worker H.
  - by exists worker.
  - destruct (worker_exec vm e w worker H) as (w1 & H1 & Hp1 & Hc1).
    destruct (IH _ _ H1) as (w2 & H2 & Hp2 & Hc2).
    exists w2. split; [done|]. split; [congruence | auto].
Qed.

Lemma workers_persist_witness :
  exists worker',
    heap (exec_all (scan pics "/pics" ViewModel_init)
            [Scan pics "/etc"; Run (scanner pics) 0; Deliver]) !! 0 = Some worker' /\
    path worker' = "/pics" /\
    (false = true -> _cancel_event worker' = true).
Proof.
  apply (workers_persist (scan pics "/pics" ViewModel_init) _ 0
           {| path := "/pics"; _cancel_event := false |}).
  vm_compute. reflexivity.
Defined.


(** ** The main window: selection and deletion *)

Lemma shown_rows_lt text m r : r ∈ shown_rows text m -> r < rowCount m.
Proof.
  unfold shown_rows. intros [H _]%list_elem_of_In%filter_In.
  apply in_seq in H. lia.
Qed.

Lemma data_filepath_lookup m r s :
  _paths m !! r = Some s ->
  data m (index m r) FILEPATH_ROLE = Ok (Some (VStr s), m).
Proof.
  intros H. rewrite index_in_range by (by apply lookup_lt_Some in H).
  unfold data. rewrite isValid_fresh. cbn [negb row].
  by rewrite (getitem_lookup _ _ _ H).
Qed.

Lemma selected_step_spec text m paths proxy_index :
  selected_step text (Ok (paths, m)) proxy_index
  = Ok (paths ++ option_list (selected_path text m proxy_index), m).
Proof.
  unfold selected_step, selected_path, mapToSource. simpl.
  destruct (isValid proxy_index); simpl; [|by rewrite app_nil_r].
  destruct (shown_rows text m !! _) as [r|] eqn:E; simpl; [|by rewrite app_nil_r].
  apply list_elem_of_lookup_2, shown_rows_lt in E.
  apply lookup_lt_is_Some in E as [s Hs].
  rewrite (data_filepath_lookup _ _ _ Hs), Hs. simpl.
  destruct (String.eqb s ""); simpl; by rewrite ?app_nil_r.
Qed.

Lemma selected_fold text m sel :
  forall paths,
    fold_left (selected_step text) sel (Ok (paths, m))
    = Ok (paths ++ omap (selected_path text m) sel, m).
Proof.
  induction sel as [|i sel IH]; intros paths; [simpl; by rewrite app_nil_r|].
  cbn [fold_left]. rewrite selected_step_spec, IH, <- app_assoc.
  change (omap (selected_path text m) (i :: sel))
    with (match selected_path text m i with
          | Some y => y :: omap (selected_path text m) sel
          | None => omap (selected_path text m) sel
          end).
  by destruct (selected_path text m i).
Qed.

Lemma dict_fromkeys_fold l :
  forall keys,
    NoDup keys ->
    NoDup (fold_left dict_add l keys) /\
    forall x, x ∈ fold_left dict_add l keys <-> x ∈ keys \/ x ∈ l.
Proof.
  induction l as [|y l IH]; intros keys Hnd; simpl.
  - split; [done|]. intros x. rewrite elem_of_nil. tauto.
  - unfold dict_add at 2 4. case_bool_decide as Hy.
    + destruct (IH keys Hnd) as [H1 H2]. split; [done|].
      intros x. rewrite H2, elem_of_cons. split; [tauto|].
      intros [?|[->|?]]; auto.
    + assert (NoDup (keys ++ [y])) as Hnd'.
      { apply NoDup_app. split; [done|]. split; [|apply NoDup_singleton].
        intros x Hx ->%list_elem_of_singleton. done. }
      destruct (IH _ Hnd') as [H1 H2]. split; [done|].
      intros x. rewrite H2, elem_of_app, elem_of_cons, elem_of_cons, elem_of_nil. tauto.
Qed.

(** X19. [_selected_filepaths] never raises and leaves the model as it is.
    It returns, without repetition, the non-empty paths behind the selected
    rows of the proxy: a path is returned exactly when some valid selected
    index has it as the path of the row it shows. Each returned path is one
    the filtered view shows. *)
Theorem selected_filepaths_spec (vm : ViewModel) (sel_indexes : list QModelIndex) :
  exists paths,
    _selected_filepaths vm sel_indexes = Ok (paths, model vm) /\
    NoDup paths /\
    (forall s, s ∈ paths <->
       exists i, i ∈ sel_indexes /\
                 selected_path (filter_text vm) (model vm) i = Some s) /\
    (forall s, s ∈ paths -> s <> "" /\ s ∈ filtered_view vm).
Proof.
  unfold _selected_filepaths. rewrite selected_fold. simpl.
  destruct (dict_fromkeys_fold
              (omap (selected_path (filter_text vm) (model vm)) sel_indexes) [])
    as [Hnd Hin]; [constructor|].
  eexists. split; [done|]. split; [exact Hnd|].
  assert (forall s, s ∈ dict_fromkeys
                      (omap (selected_path (filter_text vm) (model vm)) sel_indexes) <->
            exists i, i ∈ sel_indexes /\
                      selected_path (filter_text vm) (model vm) i = Some s) as Hspec.
  { intros s. unfold dict_fromkeys. rewrite Hin, elem_of_nil, list_elem_of_omap. tauto. }
  split; [exact Hspec|].
  intros s (i & _ & Hs)%Hspec. unfold selected_path in Hs.
  destruct (isValid i); [|done].
  destruct (shown_rows _ _ !! _) as [r|] eqn:Er; [|done]. simpl in Hs.
  destruct (_paths (model vm) !! r) as [s'|] eqn:Es; [|done]. simpl in Hs.
  destruct (String.eqb_spec s' ""); [done|]. injection Hs as ->.
  split; [done|]. unfold filtered_view. apply elem_of_map. exists r.
  split; [by rewrite (filepath_lookup _ _ _ Es) | by apply list_elem_of_lookup_2 in Er].
Qed.

Lemma remove_path_filter m p :
  NoDup (_paths m) ->
  _paths (remove_path m p) = List.filter (fun x => negb (String.eqb x p)) (_paths m).
Proof.
  intros Hnd.
  assert (forall l : list string, (p ∉ l) ->
            List.filter (fun x => negb (String.eqb x p)) l = l) as Hid.
  { intros l Hl. apply forallb_filter_id, forallb_forall.
    intros x Hx%list_elem_of_In. apply negb_true_iff, String.eqb_neq.
    by intros ->. }
  unfold remove_path. destruct (list_index p (_paths m)) as [r|] eqn:E.
  - destruct (list_index_Some _ _ _ E) as (b & a & Hl & Hb & -> & Hd).
    simpl. rewrite Hd, Hl, List.filter_app. simpl. rewrite String.eqb_refl. simpl.
    rewrite Hl in Hnd. apply NoDup_app in Hnd as (_ & _ & [Ha _]%NoDup_cons).
    by rewrite !Hid.
  - apply list_index_None in E. by rewrite Hid.
Qed.

Lemma filter_filter {A : Type} (f g : A -> bool) (l : list A) :
  List.filter f (List.filter g l) = List.filter (fun x => g x && f x) l.
Proof.
  induction l as [|x l IH]; simpl; [done|].
  destruct (g x); simpl; [destruct (f x)|]; by rewrite ?IH.
Qed.

Lemma delete_paths_fold (os_remove : string -> result ()) (paths : list string) :
  forall m errors,
    NoDup (_paths m) ->
    let r := fold_left
               (fun acc p =>
                  match os_remove p with
                  | Ok _ => (remove_path (fst acc) p, snd acc)
                  | Exc exc => (fst acc, snd acc ++ [basename p +:+ ": " +:+ exc])
                  end) paths (m, errors) in
    _paths (fst r)
    = List.filter (fun x => negb (Str.mem x paths && returned (os_remove x))) (_paths m) /\
    snd r = errors ++ omap (error_line os_remove) paths.
Proof.
  induction paths as [|p paths IH]; intros m errors Hnd; simpl.
  - split; [|by rewrite app_nil_r]. symmetry. by apply filter_all.
  - unfold error_line at 1. destruct (os_remove p) as [u|exc] eqn:Ep; simpl.
    + destruct (IH (remove_path m p) errors (remove_path_NoDup m p Hnd)) as [H1 H2].
      split; [|exact H2]. rewrite H1, remove_path_filter by done.
      rewrite filter_filter. apply filter_same. intros x. simpl.
      destruct (String.eqb_spec x p) as [->|Hne]; simpl; [by rewrite Ep | done].
    + destruct (IH m (errors ++ [basename p +:+ ": " +:+ exc]) Hnd) as [H1 H2].
      split; [|by rewrite H2, <- app_assoc].
      rewrite H1. apply filter_same. intros x. simpl.
      destruct (String.eqb_spec x p) as [->|Hne]; simpl; [|done].
      by rewrite Ep, !andb_false_r.
Qed.

(** X20. The deletion loop goes through all the paths, whatever fails: on a
    store of distinct paths it takes out exactly the listed paths whose
    [os.remove] returned and keeps every other entry in its place, the paths
    whose [os.remove] raised among them; it collects, in the order of the
    paths, one error line for each of those: the final segment of the path,
    a colon and the text of the exception. The store stays free of
    repetition. *)
Theorem delete_paths_spec
  (os_remove : string -> result ()) (paths : list string) (m : ImageListModel)
  (H : NoDup (_paths m)) :
  _paths (fst (delete_paths os_remove paths m))
  = List.filter (fun x => negb (Str.mem x paths && returned (os_remove x))) (_paths m) /\
  snd (delete_paths os_remove paths m) = omap (error_line os_remove) paths /\
  NoDup (_paths (fst (delete_paths os_remove paths m))).
Proof.
  destruct (delete_paths_fold os_remove paths m [] H) as [H1 H2].
  unfold delete_paths. split; [exact H1|]. split; [exact H2|].
  rewrite H1. by apply NoDup_filter.
Qed.

Lemma delete_paths_spec_witness :
  let os_remove := fun p => if String.eqb p "/pics/b.JPG"
                            then Exc "Permission denied" else Ok () in
  let m := ImageListModel_init ["/pics/a.png"; "/pics/b.JPG"; "/pics/sub/d.webp"] 64 in
  _paths (fst (delete_paths os_remove ["/pics/b.JPG"; "/pics/a.png"] m))
  = ["/pics/b.JPG"; "/pics/sub/d.webp"] /\
  snd (delete_paths os_remove ["/pics/b.JPG"; "/pics/a.png"] m)
  = ["b.JPG: Permission denied"].
Proof.
  intros os_remove m.
  destruct (delete_paths_spec os_remove ["/pics/b.JPG"; "/pics/a.png"] m) as (H1 & _).
  - vm_compute. apply NoDup_ListNoDup.
    repeat constructor; simpl; intuition discriminate.
  - split; [rewrite H1|]; vm_compute; reflexivity.
Defined.

(** ** The view after a removal *)

(** X21. Removing a path from a store of distinct paths takes it out of the
    filtered view and leaves the other rows shown as they were, in their
    order, whatever the filter text. *)
Theorem remove_path_view
  (vm : ViewModel) (p : string) (H : NoDup (_paths (model vm))) :
  filtered_view (with_model vm (remove_path (model vm) p))
  = List.filter (fun x => negb (String.eqb x p)) (filtered_view vm).
Proof.
  unfold filtered_view. simpl.
  rewrite !filtered_view_filter, remove_path_filter by done.
  rewrite !filter_filter. apply filter_same. intros x. apply andb_comm.
Qed.

Lemma remove_path_view_witness :
  let vm := set_filter "ca"
              (with_model ViewModel_init
                 (replace (model ViewModel_init)
                          ["/p/Cat.png"; "/p/car.jpg"; "/p/dog.png"])) in
  filtered_view (with_model vm (remove_path (model vm) "/p/Cat.png")) = ["/p/car.jpg"].
Proof.
  intros vm. rewrite (remove_path_view vm "/p/Cat.png").
  - vm_compute. reflexivity.
  - vm_compute. apply NoDup_ListNoDup.
    repeat constructor; simpl; intuition discriminate.
Defined.

(** ** Scans of one tree *)





